(** * jobq: a job queue backed by one SQLite table

    Shallow embedding of the library in [src/example.ts] (the part imported
    there as [./index.js]): the [jobs] table, the four SQL statements issued
    by [getNextJob], [failJob], [completeJob] and [enqueueJob], the payload
    handling of [createClient], and runs of the worker loops as
    interleavings of those statements. *)

From Stdlib Require Import ZArith List String Ascii Bool Lia DecimalString.
From Stdlib Require Import Permutation.
Import ListNotations.
Open Scope Z_scope.

(** ** The job table *)

(** [StatusType]: the four status codes of the [status] lookup table. *)
Inductive Status : Type := PENDING | IN_PROGRESS | COMPLETE | FAILED.

Definition status_code (s : Status) : Z :=
  match s with PENDING => 1 | IN_PROGRESS => 2 | COMPLETE => 3 | FAILED => 4 end.

Definition status_eqb (a b : Status) : bool := status_code a =? status_code b.

Definition terminal (s : Status) : bool :=
  match s with COMPLETE | FAILED => true | _ => false end.

(** One row of [jobs].  [interface Job] lists the first seven columns; the
    table also has the nullable [error] column. *)
Record Job : Type := mkJob {
  id : Z;
  status : Status;
  description : string;
  max_attempts : Z;
  attempts_remaining : Z;
  time_limit_seconds : Z;
  deadline : option Z;
  error : option string
}.

(** The parameters of an insert.  The two numbers are integers; the
    STRICT INTEGER columns hold them when they fit 64 bits, see
    [storable]. *)
Record JobParams : Type := mkParams {
  p_description : string;
  p_time_limit_seconds : Z;
  p_max_attempts : Z
}.

Definition int64 (n : Z) : bool :=
  (-9223372036854775808 <=? n) && (n <=? 9223372036854775807).

(** The parameters the store accepts; it rejects the insert of any other,
    and the table stays as it is. *)
Definition storable (p : JobParams) : bool :=
  int64 (p_time_limit_seconds p) && int64 (p_max_attempts p).

(** The table: its rows in rowid order. *)
Definition Table : Type := list Job.

(** [id INTEGER PRIMARY KEY]: no two rows share an id. *)
Definition wf (t : Table) : Prop := NoDup (map id t).

(** The first and the last second SQLite's date functions represent:
    Julian day 0 and the end of the year 9999, as seconds since 1970. *)
Definition unixepoch_min : Z := -210866760000.
Definition unixepoch_max : Z := 253402300799.

(** The store's clock arithmetic [unixepoch('now', '+N second')], with
    [now] the store time in whole seconds.  The code writes the [+] itself
    and prints [N] after it: a negative [N] gives the modifier
    ['+-N second'], which SQLite does not accept, and the result is NULL;
    so it is when the date falls outside what the date functions
    represent.  The spec gives the result as [now + time_limit_seconds]. *)
Definition unixepoch_plus (now secs : Z) : option Z :=
  if (0 <=? secs)
     && (unixepoch_min <=? now + secs) && (now + secs <=? unixepoch_max)
  then Some (now + secs)
  else None.

(** The offsets for which the store computes a date. *)
Definition representable (now secs : Z) : Prop :=
  0 <= secs /\
  unixepoch_min <= now + secs <= unixepoch_max.

(** [deadline < unixepoch('now')]: not true of a NULL deadline. *)
Definition deadline_passed (d : option Z) (now : Z) : bool :=
  match d with
  | Some t => t <? now
  | None => false
  end.

(** The order of [ORDER BY deadline]: NULL comes before every value. *)
Definition deadline_ltb (a b : option Z) : bool :=
  match a, b with
  | None, Some _ => true
  | Some x, Some y => x <? y
  | _, None => false
  end.

Definition deadline_leb (a b : option Z) : bool := negb (deadline_ltb b a).

(** ** SQL statements *)

(** [UPDATE jobs SET ... WHERE ... RETURNING *]: the number of rows matched
    ([this.changes]), the rows as they are after the update, and the new
    table. *)
Definition sql_update (where_ : Job -> bool) (set_ : Job -> Job) (t : Table)
  : nat * list Job * Table :=
  (List.length (filter where_ t),
   map set_ (filter where_ t),
   map (fun r => if where_ r then set_ r else r) t).

Definition changes (r : nat * list Job * Table) : nat := fst (fst r).
Definition returning (r : nat * list Job * Table) : list Job := snd (fst r).
Definition table_of (r : nat * list Job * Table) : Table := snd r.

(** The [WHERE] clause of the sub-select of [getNextJob]. *)
Definition eligible (now : Z) (j : Job) : bool :=
  (status_eqb (status j) PENDING && (0 <? attempts_remaining j))
  || (status_eqb (status j) IN_PROGRESS
      && deadline_passed (deadline j) now
      && (0 <? attempts_remaining j)).

(** [ORDER BY deadline DESC LIMIT 1].  Among rows of equal deadline the
    store may return any; the model takes the first in rowid order. *)
Fixpoint latest (best : Job) (rest : list Job) : Job :=
  match rest with
  | [] => best
  | j :: rest' =>
      latest (if deadline_ltb (deadline best) (deadline j) then j else best)
             rest'
  end.

Definition order_by_deadline_desc_limit_1 (rows : list Job) : option Job :=
  match rows with
  | [] => None
  | j :: rest => Some (latest j rest)
  end.

(** The sub-select: the id of the chosen row, or NULL. *)
Definition select_next_id (now : Z) (t : Table) : option Z :=
  option_map id (order_by_deadline_desc_limit_1 (filter (eligible now) t)).

(** The [SET] clause of [getNextJob]; the new deadline is NULL when
    [unixepoch] gives none. *)
Definition lease (now : Z) (j : Job) : Job :=
  mkJob (id j) IN_PROGRESS (description j) (max_attempts j)
        (attempts_remaining j - 1) (time_limit_seconds j)
        (unixepoch_plus now (time_limit_seconds j)) (error j).

(** [getNextJob]: [db.get] resolves with the first returned row, or
    [undefined] when there is none; [id = NULL] matches no row. *)
Definition getNextJob (now : Z) (t : Table) : option Job * Table :=
  match select_next_id now t with
  | None => (None, t)
  | Some i =>
      let r := sql_update (fun r => id r =? i) (lease now) t in
      (hd_error (returning r), table_of r)
  end.

Definition set_failed (reason : string) (j : Job) : Job :=
  mkJob (id j) FAILED (description j) (max_attempts j) (attempts_remaining j)
        (time_limit_seconds j) (deadline j) (Some reason).

(** The [SET] clause of the retry branch of [failJob]; the new deadline is
    NULL when [unixepoch] gives none. *)
Definition set_pending (now : Z) (j : Job) : Job :=
  mkJob (id j) PENDING (description j) (max_attempts j) (attempts_remaining j)
        (time_limit_seconds j)
        (unixepoch_plus now (time_limit_seconds j)) (error j).

Definition set_complete (j : Job) : Job :=
  mkJob (id j) COMPLETE (description j) (max_attempts j) (attempts_remaining j)
        (time_limit_seconds j) (deadline j) (error j).

(** The statement of [failJob]: the branch on the caller's own copy of
    [attempts_remaining] chooses between the two updates. *)
Definition failJob_stmt (now : Z) (t : Table) (job : Job) (reason : string)
  : nat * list Job * Table :=
  if attempts_remaining job <=? 0 then
    sql_update
      (fun r => (id r =? id job)
                && (attempts_remaining r =? attempts_remaining job))
      (set_failed reason) t
  else
    sql_update (fun r => id r =? id job) (set_pending now) t.

(** [failJob]: resolves with [changes === 1]. *)
Definition failJob (now : Z) (t : Table) (job : Job) (reason : string)
  : bool * Table :=
  let r := failJob_stmt now t job reason in
  (Nat.eqb (changes r) 1, table_of r).

(** The statement of [completeJob]. *)
Definition completeJob_stmt (t : Table) (job : Job) : nat * list Job * Table :=
  sql_update
    (fun r => (id r =? id job)
              && (attempts_remaining r =? attempts_remaining job))
    set_complete t.

(** [completeJob]: resolves with [changes === 1]. *)
Definition completeJob (t : Table) (job : Job) : bool * Table :=
  let r := completeJob_stmt t job in
  (Nat.eqb (changes r) 1, table_of r).

(** The rowid given to an inserted row: one more than the largest in the
    table, 1 in an empty table. *)
Definition next_id (t : Table) : Z :=
  1 + fold_right (fun j m => Z.max (id j) m) 0 t.

(** [enqueueJob]: the [INSERT] of parameters that are [storable]; the
    promise resolves with [this.lastID].  Numbers the STRICT table cannot
    hold make the store refuse the statement: the promise rejects, the
    table stays as it is, and the call is no statement of a run.  The
    deadline is NULL when [unixepoch] gives none. *)
Definition enqueueJob (now : Z) (t : Table) (params : JobParams) : Z * Table :=
  let i := next_id t in
  (i, t ++ [mkJob i PENDING (p_description params) (p_max_attempts params)
                  (p_max_attempts params) (p_time_limit_seconds params)
                  (unixepoch_plus now (p_time_limit_seconds params)) None]).

(** [SELECT * FROM jobs WHERE id = ?], for stating properties of one job. *)
Definition find_job (i : Z) (t : Table) : option Job :=
  find (fun r => id r =? i) t.

(** ** Runs of the system

    Every statement is atomic in the store, so a run of any number of
    worker loops and clients is an interleaving of statements.  The world
    keeps the table and the log of the rows that [getNextJob] handed out,
    newest first. *)
Inductive event : Type :=
| Claim (now : Z)
| Complete (job : Job)
| Fail (now : Z) (job : Job) (reason : string)
| Enqueue (now : Z) (params : JobParams).

Record world : Type := mkWorld {
  db : Table;
  granted : list Job
}.

Definition step (w : world) (e : event) : world :=
  match e with
  | Claim now =>
      match getNextJob now (db w) with
      | (Some j, t) => mkWorld t (j :: granted w)
      | (None, t) => mkWorld t (granted w)
      end
  | Complete job => mkWorld (snd (completeJob (db w) job)) (granted w)
  | Fail now job reason =>
      mkWorld (snd (failJob now (db w) job reason)) (granted w)
  | Enqueue now params =>
      mkWorld (snd (enqueueJob now (db w) params)) (granted w)
  end.

Definition run (w : world) (es : list event) : world := fold_left step es w.

Definition Job_eq_dec (a b : Job) : {a = b} + {a <> b}.
Proof.
  decide equality;
    try apply Z.eq_dec; try apply string_dec.
  - decide equality; apply string_dec.
  - decide equality; apply Z.eq_dec.
  - decide equality.
Defined.

Definition held (w : world) (job : Job) : bool :=
  if in_dec Job_eq_dec job (granted w) then true else false.

(** [startWorker] finalises only the job it got from [getNextJob]. *)
Definition worker_event (w : world) (e : event) : bool :=
  match e with
  | Complete job => held w job
  | Fail _ job _ => held w job
  | _ => true
  end.

Fixpoint worker_run (w : world) (es : list event) : bool :=
  match es with
  | [] => true
  | e :: es' => worker_event w e && worker_run (step w e) es'
  end.

(** Number of leases granted on job [i] so far. *)
Definition leases_granted (i : Z) (w : world) : Z :=
  Z.of_nat (List.length (filter (fun g => id g =? i) (granted w))).

Definition empty_world : world := mkWorld [] [].

(** The columns no statement writes after the insert. *)
Definition same_job (r r' : Job) : Prop :=
  id r' = id r /\ description r' = description r /\
  max_attempts r' = max_attempts r /\
  time_limit_seconds r' = time_limit_seconds r.


(** ** Payloads

    The values [JSON.stringify] accepts, numbers being integers that print
    in plain decimal; an object lists its own properties in enumeration
    order. *)
#[local] Set Warnings "-register-all".
Inductive json : Type :=
| JNull
| JBool (b : bool)
| JNum (n : Z)
| JStr (s : string)
| JArr (items : list json)
| JObj (props : list (string * json)).

Definition dquote : ascii := ascii_of_nat 34.
Definition backslash : ascii := ascii_of_nat 92.

Definition hex_digit (n : nat) : ascii :=
  nth n ["0"; "1"; "2"; "3"; "4"; "5"; "6"; "7"; "8"; "9";
         "a"; "b"; "c"; "d"; "e"; "f"]%char "0"%char.

(** The escapes of JSON string quoting. *)
Definition escape_char (c : ascii) : string :=
  let n := nat_of_ascii c in
  if Nat.eqb n 34 then String backslash (String dquote EmptyString)
  else if Nat.eqb n 92 then String backslash (String backslash EmptyString)
  else if Nat.eqb n 8 then String backslash "b"
  else if Nat.eqb n 12 then String backslash "f"
  else if Nat.eqb n 10 then String backslash "n"
  else if Nat.eqb n 13 then String backslash "r"
  else if Nat.eqb n 9 then String backslash "t"
  else if Nat.ltb n 32 then
    String backslash
      (String "u" (String "0" (String "0"
        (String (hex_digit (Nat.div n 16))
          (String (hex_digit (Nat.modulo n 16)) EmptyString)))))
  else String c EmptyString.

Fixpoint escape (s : string) : string :=
  match s with
  | EmptyString => EmptyString
  | String c s' => append (escape_char c) (escape s')
  end.

Definition quote (s : string) : string :=
  String dquote (append (escape s) (String dquote EmptyString)).

Definition number_to_string (n : Z) : string :=
  NilZero.string_of_int (Z.to_int n).

(** Members separated by commas. *)
Fixpoint join_comma (parts : list string) : string :=
  match parts with
  | [] => EmptyString
  | [p] => p
  | p :: rest => append p (String "," (join_comma rest))
  end.

(** [JSON.stringify] without indentation. *)
Fixpoint JSON_stringify (v : json) : string :=
  match v with
  | JNull => "null"
  | JBool true => "true"
  | JBool false => "false"
  | JNum n => number_to_string n
  | JStr s => quote s
  | JArr items =>
      append "[" (append (join_comma (map JSON_stringify items)) "]")
  | JObj props =>
      append "{"
        (append
           (join_comma
              (map (fun kv => append (quote (fst kv))
                                (String ":" (JSON_stringify (snd kv))))
                   props))
           "}")
  end.

Definition object : Type := list (string * json).

(** Property read: [o.k], [None] for [undefined]. *)
Fixpoint prop (k : string) (o : object) : option json :=
  match o with
  | [] => None
  | (k', v) :: o' => if String.eqb k' k then Some v else prop k o'
  end.

Definition as_number (v : option json) : option Z :=
  match v with
  | Some (JNum n) => Some n
  | _ => None
  end.

(** [const { time_limit_seconds, max_attempts, ...rest } = params]: the
    object [rest]. *)
Definition rest_of (o : object) : object :=
  filter (fun kv => negb (String.eqb (fst kv) "time_limit_seconds"
                          || String.eqb (fst kv) "max_attempts")) o.

(** [createClient(...).enqueueJob]: the parameters handed to [enqueueJob].
    [None] when [params] is outside its type ([max_attempts] or
    [time_limit_seconds] not a number). *)
Definition client_params (params : object) : option JobParams :=
  match as_number (prop "time_limit_seconds" params),
        as_number (prop "max_attempts" params) with
  | Some tls, Some ma =>
      Some (mkParams (JSON_stringify (JObj (rest_of params))) tls ma)
  | _, _ => None
  end.

Definition client_enqueueJob (now : Z) (t : Table) (params : object)
  : option (Z * Table) :=
  option_map (enqueueJob now t) (client_params params).

(** The callback of [t.map] in [startWorkers]: one follow-up job. *)
Definition followup_params (jt : object) : option JobParams :=
  match as_number (prop "max_attempts" jt),
        as_number (prop "time_limit_seconds" jt) with
  | Some ma, Some tls =>
      Some (mkParams (JSON_stringify (JObj jt)) tls ma)
  | _, _ => None
  end.

(** The wrapper [startWorkers] puts around the work function: one
    parameter record per follow-up object of the returned array. *)
Definition followups (t : list object) : list (option JobParams) :=
  map followup_params t.

(** [s] occurs in [big]. *)
Definition occurs_in (s big : string) : Prop :=
  exists pre post, big = append pre (append s post).

(** ** Reading the table *)

(** [getJobs]: [SELECT * FROM jobs], every row in rowid order. *)
Definition getJobs (t : Table) : list Job := t.

Definition is_enqueue (e : event) : bool :=
  match e with Enqueue _ _ => true | _ => false end.

(** What every row of a table built by the statements satisfies. *)
Definition row_ok (r : Job) : Prop :=
  attempts_remaining r <= max_attempts r /\
  (status r = IN_PROGRESS ->
   0 <= attempts_remaining r < max_attempts r) /\
  (status r = FAILED -> attempts_remaining r <= 0 /\ error r <> None).

(** A statement that neither finalises job [j] nor claims at a store time
    after the deadline of [j]; no time is after a NULL deadline. *)
Definition leaves_lease (j : Job) (e : event) : Prop :=
  match e with
  | Claim now => deadline_passed (deadline j) now = false
  | Complete job => id job <> id j
  | Fail _ job _ => id job <> id j
  | Enqueue _ _ => True
  end.

(** [g] is the lease handed out last on its job: no lease on that job
    carries a smaller [attempts_remaining]. *)
Definition newest_lease (w : world) (g : Job) : Prop :=
  forall g', In g' (granted w) -> id g' = id g ->
             attempts_remaining g <= attempts_remaining g'.

(** How the leases handed out relate to the rows, see
    [run_tokens_ok]: a row's [attempts_remaining] is at most the value on
    any lease on it, and is the value on one of them. *)
Definition tokens_ok (w : world) : Prop :=
  forall g, In g (granted w) ->
    exists g0 r,
      In g0 (granted w) /\ id g0 = id g /\
      find_job (id g) (db w) = Some r /\
      attempts_remaining g0 = attempts_remaining r /\
      attempts_remaining r <= attempts_remaining g.

(** ** The schema

    A database file: each of the two tables is absent or holds rows.  A row
    of [status] is an id and a nullable name; the order of its rows plays
    no part. *)
Record database : Type := mkDatabase {
  status_table : option (list (Z * option string));
  jobs_table : option Table
}.

Fixpoint lookup_status (i : Z) (rows : list (Z * option string))
  : option (option string) :=
  match rows with
  | [] => None
  | (k, name) :: rows' => if k =? i then Some name else lookup_status i rows'
  end.

(** One row of [INSERT ... ON CONFLICT DO NOTHING]: skipped when its id,
    the primary key, is taken. *)
Definition insert_or_ignore (rows : list (Z * option string))
           (row : Z * option string) : list (Z * option string) :=
  match lookup_status (fst row) rows with
  | Some _ => rows
  | None => rows ++ [row]
  end.

(** The names of [StatusType]. *)
Definition status_name (s : Status) : string :=
  match s with
  | PENDING => "PENDING"
  | IN_PROGRESS => "IN_PROGRESS"
  | COMPLETE => "COMPLETE"
  | FAILED => "FAILED"
  end.

(** The rows listed in the [INSERT INTO status] of [initialiseDB]. *)
Definition status_rows : list (Z * option string) :=
  [(1, Some "PENDING"%string); (2, Some "IN_PROGRESS"%string);
   (3, Some "COMPLETE"%string); (4, Some "FAILED"%string)].

(** [initialiseDB]: both [CREATE TABLE IF NOT EXISTS] keep a table that is
    there, the insert adds the status rows whose id is free. *)
Definition initialiseDB (d : database) : database :=
  let st := match status_table d with Some rows => rows | None => [] end in
  let jobs := match jobs_table d with Some t => t | None => [] end in
  mkDatabase (Some (fold_left insert_or_ignore status_rows st)) (Some jobs).

(** ** The worker loop *)

(** A value caught from a rejected statement: an [Error] object with or
    without a numeric [errno], or anything else. *)
Inductive thrown : Type :=
| ErrorObject (errno : option Z)
| OtherValue.

(** [isBusyError]; [None] is [undefined]. *)
Definition isBusyError (e : option thrown) : bool :=
  match e with
  | Some (ErrorObject (Some n)) => n =? 5
  | _ => false
  end.

(** What the work function does with a description: it returns, with or
    without an array of follow-up jobs, or throws; [reason] is the thrown
    value under [String]. *)
Inductive work_result : Type :=
| Returned (newJobs : option (list JobParams))
| Threw (reason : string).

(** What one pass of the loop of [startWorker] meets: whether the store
    rejects the claim, the store time of each statement, the work function,
    which of the later statements the store rejects, and the order in which
    the store runs them.  A rejected statement has no effect.  The inserts
    of the follow-ups are not awaited: the store may run them in any order,
    before or after the finalising statement; [store_rank k] places the
    [k]-th statement issued after the claim, lower ranks running first.
    A pass here ends when all its statements have run: an insert that the
    store runs later still is a statement of a run, see [step]. *)
Record pass : Type := mkPass {
  claim_fault : option thrown;
  claim_now : Z;
  work : string -> work_result;
  enqueue_now : nat -> Z;
  enqueue_fault : nat -> bool;
  finalise_now : Z;
  finalise_fault : bool;
  store_rank : nat -> Z
}.

(** [for (const job of newJobs) enqueueJob(db, job)]: the inserts the loop
    issues and the store accepts, in the order of the array. *)
Fixpoint enqueue_events (ps : pass) (k : nat) (newJobs : list JobParams)
  : list event :=
  match newJobs with
  | [] => []
  | p :: rest =>
      (if enqueue_fault ps k || negb (storable p) then []
       else [Enqueue (enqueue_now ps k) p])
      ++ enqueue_events ps (S k) rest
  end.

(** Statements sorted by rank, equal ranks in the order issued. *)
Fixpoint insert_by_rank (x : Z * event) (l : list (Z * event))
  : list (Z * event) :=
  match l with
  | [] => [x]
  | y :: l' =>
      if fst x <=? fst y then x :: y :: l' else y :: insert_by_rank x l'
  end.

Definition by_rank (l : list (Z * event)) : list (Z * event) :=
  fold_right insert_by_rank [] l.

(** The order in which the store runs the statements [es], issued in this
    order. *)
Definition in_store_order (ps : pass) (es : list event) : list event :=
  map snd
      (by_rank (combine (map (store_rank ps) (seq 0 (List.length es))) es)).

Definition followup_events (ps : pass) (res : work_result) : list event :=
  match res with
  | Returned (Some newJobs) => enqueue_events ps 0 newJobs
  | _ => []
  end.

(** [completeJob] after a return, [failJob] after a throw. *)
Definition finalise_events (ps : pass) (job : Job) (res : work_result)
  : list event :=
  if finalise_fault ps then []
  else match res with
       | Returned _ => [Complete job]
       | Threw reason => [Fail (finalise_now ps) job reason]
       end.

(** The statements of one pass of the loop, in the order the store runs
    them: the claim, awaited, then the inserts and the finalising
    statement. *)
Definition pass_events (ps : pass) (w : world) : list event :=
  match claim_fault ps with
  | Some _ => []
  | None =>
      Claim (claim_now ps) ::
      match fst (getNextJob (claim_now ps) (db w)) with
      | None => []
      | Some job =>
          let res := work ps (description job) in
          in_store_order ps
            (followup_events ps res ++ finalise_events ps job res)
      end
  end.

(** One pass of [for (;;)]: the counter [busy_errors] and the world.  The
    sleep after a busy rejection only lets store time pass and is not
    represented. *)
Definition worker_pass (s : nat * world) (ps : pass) : nat * world :=
  ((if isBusyError (claim_fault ps) then S (fst s) else 0%nat),
   run (snd s) (pass_events ps (snd s))).

(** [startWorker], for as many passes as are given; [busy_errors] starts
    at 0. *)
Definition startWorker (w : world) (passes : list pass) : nat * world :=
  fold_left worker_pass passes (0%nat, w).

(** The busy rejections at the end of a history, latest pass first. *)
Fixpoint leading_busy (history : list pass) : nat :=
  match history with
  | [] => 0%nat
  | ps :: older =>
      if isBusyError (claim_fault ps) then S (leading_busy older) else 0%nat
  end.

(** The row a pass leaves behind for the job it claimed. *)
Definition finalised (ps : pass) (job : Job) : Job :=
  match work ps (description job) with
  | Returned _ => set_complete job
  | Threw reason =>
      if attempts_remaining job <=? 0 then set_failed reason job
      else set_pending (finalise_now ps) job
  end.

(** The statements that follow the claim in a pass: inserts, and the
    finalising statement for the job claimed. *)
Definition after_claim (job : Job) (e : event) : Prop :=
  is_enqueue e = true \/ e = Complete job \/
  exists now reason, e = Fail now job reason.

(** The job descriptions a list of statements inserts, in its order. *)
Definition enqueued (es : list event) : list JobParams :=
  flat_map (fun e => match e with Enqueue _ p => [p] | _ => [] end) es.

(** The finalising statement of a pass for the job it claimed. *)
Definition finalising (ps : pass) (job : Job) : event :=
  match work ps (description job) with
  | Returned _ => Complete job
  | Threw reason => Fail (finalise_now ps) job reason
  end.

(** * Properties *)

(** ** Rows, keys and updates *)

Lemma status_eqb_eq (a b : Status) : status_eqb a b = true <-> a = b.
Proof.
  unfold status_eqb; rewrite Z.eqb_eq.
  split; [destruct a, b; simpl; congruence | intros ->; reflexivity].
Qed.

(** ** Deadlines *)

Lemma unixepoch_plus_cases (now secs : Z) :
  (representable now secs -> unixepoch_plus now secs = Some (now + secs)) /\
  (~ representable now secs -> unixepoch_plus now secs = None).
Proof.
  unfold representable, unixepoch_plus.
  destruct (0 <=? secs) eqn:E1;
    destruct (unixepoch_min <=? now + secs) eqn:E3;
    destruct (now + secs <=? unixepoch_max) eqn:E4; cbn [andb];
    rewrite ?Z.leb_le, ?Z.leb_gt, ?Z.ltb_lt, ?Z.ltb_ge in *;
    split; intros H; try reflexivity; try lia; exfalso; apply H; lia.
Qed.

Lemma unixepoch_plus_negative (now secs : Z) :
  secs < 0 -> unixepoch_plus now secs = None.
Proof.
  intros H; apply unixepoch_plus_cases; unfold representable; lia.
Qed.

Lemma unixepoch_plus_late (now secs : Z) :
  unixepoch_max < now + secs -> unixepoch_plus now secs = None.
Proof.
  intros H; apply unixepoch_plus_cases; unfold representable; lia.
Qed.

Lemma deadline_passed_spec (d : option Z) (now : Z) :
  deadline_passed d now = true <-> exists t, d = Some t /\ t < now.
Proof.
  destruct d as [t|]; cbn [deadline_passed].
  - rewrite Z.ltb_lt; split; [eauto | intros [t' [H ?]]; inversion H; lia].
  - split; [discriminate | intros [t' [H _]]; discriminate].
Qed.

Ltac deadline_order :=
  unfold deadline_leb, deadline_ltb in *;
  repeat match goal with
         | d : option Z |- _ => destruct d
         end;
  cbn [negb] in *;
  rewrite ?negb_true_iff, ?negb_false_iff, ?Z.ltb_lt, ?Z.ltb_ge in *;
  try reflexivity; try discriminate; try lia.

Lemma deadline_leb_refl (a : option Z) : deadline_leb a a = true.
Proof. deadline_order. Qed.

Lemma deadline_leb_trans (a b c : option Z) :
  deadline_leb a b = true -> deadline_leb b c = true ->
  deadline_leb a c = true.
Proof. deadline_order. Qed.

Lemma deadline_ltb_leb (a b : option Z) :
  deadline_ltb a b = true -> deadline_leb a b = true.
Proof. deadline_order. Qed.

Lemma deadline_not_ltb_leb (a b : option Z) :
  deadline_ltb a b = false -> deadline_leb b a = true.
Proof. deadline_order. Qed.

(** On dates the order is that of the numbers; NULL is below every date. *)
Lemma deadline_leb_spec (a b : option Z) :
  deadline_leb a b = true <->
  match a, b with
  | Some x, Some y => x <= y
  | None, _ => True
  | Some _, None => False
  end.
Proof.
  destruct a as [x|], b as [y|]; unfold deadline_leb, deadline_ltb;
    cbn [negb]; rewrite ?negb_true_iff, ?Z.ltb_ge; intuition discriminate.
Qed.

Lemma find_job_some (i : Z) (t : Table) (r : Job) :
  find_job i t = Some r -> In r t /\ id r = i.
Proof.
  unfold find_job; intros H; apply find_some in H.
  destruct H as [Hin Hid]; apply Z.eqb_eq in Hid; auto.
Qed.

Lemma find_job_absent (i : Z) (t : Table) :
  ~ In i (map id t) -> find_job i t = None.
Proof.
  intros Hn; unfold find_job.
  destruct (find (fun r => id r =? i) t) as [r|] eqn:E; [|reflexivity].
  apply find_some in E; destruct E as [Hin Hid]; apply Z.eqb_eq in Hid.
  exfalso; apply Hn; rewrite <- Hid; apply in_map; exact Hin.
Qed.

Lemma find_job_in (t : Table) (r : Job) :
  wf t -> In r t -> find_job (id r) t = Some r.
Proof.
  unfold wf, find_job; induction t as [|a t IH]; simpl; intros Hwf Hin.
  - contradiction.
  - inversion Hwf as [|? ? Hna Hnd]; subst.
    destruct Hin as [->|Hin].
    + rewrite Z.eqb_refl; reflexivity.
    + destruct (id a =? id r) eqn:E; [|auto].
      apply Z.eqb_eq in E; exfalso; apply Hna; rewrite E.
      apply in_map; exact Hin.
Qed.

Lemma filter_nothing (p : Job -> bool) (t : Table) :
  (forall r, In r t -> p r = false) -> filter p t = [].
Proof.
  induction t as [|a t IH]; simpl; intros H; [reflexivity|].
  rewrite (H a (or_introl eq_refl)); apply IH; intros r Hr; apply H; auto.
Qed.

Lemma filter_absent (i : Z) (q : Job -> bool) (t : Table) :
  ~ In i (map id t) -> filter (fun r => (id r =? i) && q r) t = [].
Proof.
  intros Hn; apply filter_nothing; intros r Hr.
  destruct (id r =? i) eqn:E; [|reflexivity].
  apply Z.eqb_eq in E; exfalso; apply Hn; rewrite <- E; apply in_map; exact Hr.
Qed.

(** Under the primary key a [WHERE id = ? AND q] clause matches the row of
    that id when [q] holds of it, and nothing else. *)
Lemma filter_key (i : Z) (q : Job -> bool) (t : Table) :
  wf t ->
  filter (fun r => (id r =? i) && q r) t =
  match find_job i t with
  | Some r => if q r then [r] else []
  | None => []
  end.
Proof.
  unfold wf, find_job; induction t as [|a t IH]; simpl; intros Hwf.
  - reflexivity.
  - inversion Hwf as [|? ? Hna Hnd]; subst.
    destruct (id a =? i) eqn:E; simpl.
    + apply Z.eqb_eq in E; subst i.
      rewrite (filter_absent (id a) q t Hna); destruct (q a); reflexivity.
    + apply IH; exact Hnd.
Qed.

Lemma filter_id (i : Z) (t : Table) :
  wf t ->
  filter (fun r => id r =? i) t =
  match find_job i t with Some r => [r] | None => [] end.
Proof.
  intros Hwf.
  rewrite (filter_ext (fun r => id r =? i)
                      (fun r => (id r =? i) && (fun _ => true) r)).
  - rewrite filter_key by exact Hwf; destruct (find_job i t); reflexivity.
  - intros r; rewrite andb_true_r; reflexivity.
Qed.

Section Update.
Variable where_ : Job -> bool.
Variable set_ : Job -> Job.
Hypothesis set_id : forall r, id (set_ r) = id r.

Lemma update_ids (t : Table) :
  map id (table_of (sql_update where_ set_ t)) = map id t.
Proof.
  unfold sql_update, table_of; simpl; rewrite map_map.
  apply map_ext; intros r; destruct (where_ r); auto.
Qed.

Lemma update_wf (t : Table) :
  wf t -> wf (table_of (sql_update where_ set_ t)).
Proof. unfold wf; rewrite update_ids; auto. Qed.

Lemma find_update (i : Z) (t : Table) :
  find_job i (table_of (sql_update where_ set_ t)) =
  option_map (fun r => if where_ r then set_ r else r) (find_job i t).
Proof.
  unfold sql_update, table_of, find_job; simpl.
  induction t as [|a t IH]; simpl; [reflexivity|].
  assert (Hid : id (if where_ a then set_ a else a) = id a)
    by (destruct (where_ a); auto).
  rewrite Hid; destruct (id a =? i); [reflexivity | exact IH].
Qed.

Lemma update_no_match (t : Table) :
  (forall r, In r t -> where_ r = false) ->
  sql_update where_ set_ t = (0%nat, [], t).
Proof.
  intros H; unfold sql_update; rewrite (filter_nothing _ _ H); simpl.
  apply f_equal; rewrite <- (map_id t) at 2.
  apply map_ext_in; intros r Hr; rewrite (H r Hr); reflexivity.
Qed.
End Update.

Lemma next_id_above (t : Table) (r : Job) : In r t -> id r < next_id t.
Proof.
  unfold next_id; induction t as [|a t IH]; cbn [fold_right In]; intros Hin.
  - contradiction.
  - destruct Hin as [->|Hin]; [lia | specialize (IH Hin); lia].
Qed.

Lemma next_id_fresh (t : Table) : ~ In (next_id t) (map id t).
Proof.
  intros Hin; apply in_map_iff in Hin; destruct Hin as [r [Hid Hin]].
  apply next_id_above in Hin; lia.
Qed.

Lemma NoDup_snoc (l : list Z) (x : Z) :
  NoDup l -> ~ In x l -> NoDup (l ++ [x]).
Proof.
  induction l as [|a l IH]; simpl; intros Hnd Hn.
  - constructor; [auto | constructor].
  - inversion Hnd as [|? ? Ha Hl]; subst; constructor.
    + rewrite in_app_iff; simpl; intros [H|[H|[]]]; [auto|].
      apply Hn; left; auto.
    + apply IH; auto.
Qed.

Lemma enqueue_wf (now : Z) (t : Table) (p : JobParams) :
  wf t -> wf (snd (enqueueJob now t p)).
Proof.
  unfold wf, enqueueJob; simpl; intros Hwf.
  rewrite map_app; simpl.
  apply NoDup_snoc; [exact Hwf | apply next_id_fresh].
Qed.

Lemma find_job_snoc (i : Z) (t : Table) (n : Job) :
  find_job i (t ++ [n]) =
  match find_job i t with
  | Some r => Some r
  | None => if id n =? i then Some n else None
  end.
Proof.
  unfold find_job; induction t as [|a t IH]; simpl; [reflexivity|].
  destruct (id a =? i); [reflexivity | exact IH].
Qed.

Lemma set_complete_id (r : Job) : id (set_complete r) = id r.
Proof. reflexivity. Qed.

Lemma set_failed_id (reason : string) (r : Job) : id (set_failed reason r) = id r.
Proof. reflexivity. Qed.

Lemma set_pending_id (now : Z) (r : Job) : id (set_pending now r) = id r.
Proof. reflexivity. Qed.

Lemma lease_id (now : Z) (r : Job) : id (lease now r) = id r.
Proof. reflexivity. Qed.

(** A keyed update leaves every other row as it was. *)
Lemma find_update_other (i k : Z) (q : Job -> bool) (set_ : Job -> Job)
      (t : Table) :
  (forall r, id (set_ r) = id r) -> i <> k ->
  find_job i (table_of (sql_update (fun r => (id r =? k) && q r) set_ t)) =
  find_job i t.
Proof.
  intros Hset Hne; rewrite find_update by exact Hset.
  destruct (find_job i t) as [r|] eqn:E; [simpl|reflexivity].
  apply find_job_some in E; destruct E as [_ Hid].
  assert (Hk : (id r =? k) = false) by (apply Z.eqb_neq; lia).
  rewrite Hk; reflexivity.
Qed.

Lemma find_update_other_id (i k : Z) (set_ : Job -> Job) (t : Table) :
  (forall r, id (set_ r) = id r) -> i <> k ->
  find_job i (table_of (sql_update (fun r => id r =? k) set_ t)) =
  find_job i t.
Proof.
  intros Hset Hne; rewrite find_update by exact Hset.
  destruct (find_job i t) as [r|] eqn:E; [simpl|reflexivity].
  apply find_job_some in E; destruct E as [_ Hid].
  assert (Hk : (id r =? k) = false) by (apply Z.eqb_neq; lia).
  rewrite Hk; reflexivity.
Qed.

(** Rows matched by a version-guarded update. *)
Lemma changes_guarded (k v : Z) (set_ : Job -> Job) (t : Table) :
  wf t ->
  changes (sql_update (fun r => (id r =? k) && (attempts_remaining r =? v))
                      set_ t) =
  match find_job k t with
  | Some r => if attempts_remaining r =? v then 1%nat else 0%nat
  | None => 0%nat
  end.
Proof.
  intros Hwf; unfold sql_update, changes; simpl.
  rewrite (filter_key k (fun r => attempts_remaining r =? v) t Hwf).
  destruct (find_job k t) as [r|]; [|reflexivity].
  destruct (attempts_remaining r =? v); reflexivity.
Qed.

Lemma changes_by_id (k : Z) (set_ : Job -> Job) (t : Table) :
  wf t ->
  changes (sql_update (fun r => id r =? k) set_ t) =
  match find_job k t with Some _ => 1%nat | None => 0%nat end.
Proof.
  intros Hwf; unfold sql_update, changes; simpl.
  rewrite (filter_id k t Hwf); destruct (find_job k t); reflexivity.
Qed.

(** A version-guarded update whose token is not the row's current
    [attempts_remaining] matches nothing. *)
Lemma guarded_stale (job r : Job) (set_ : Job -> Job) (t : Table) :
  wf t -> find_job (id job) t = Some r ->
  attempts_remaining r <> attempts_remaining job ->
  sql_update (fun x => (id x =? id job)
                       && (attempts_remaining x =? attempts_remaining job))
             set_ t = (0%nat, [], t).
Proof.
  intros Hwf Hf Hne; apply update_no_match; intros x Hx.
  destruct (id x =? id job) eqn:E; [simpl|reflexivity].
  apply Z.eqb_eq in E.
  pose proof (find_job_in t x Hwf Hx) as Hfx; rewrite E, Hf in Hfx.
  inversion Hfx; subst x; apply Z.eqb_neq; exact Hne.
Qed.

Lemma guarded_absent (job : Job) (q : Job -> bool) (set_ : Job -> Job)
      (t : Table) :
  find_job (id job) t = None ->
  sql_update (fun x => (id x =? id job) && q x) set_ t = (0%nat, [], t).
Proof.
  intros Hf; apply update_no_match; intros x Hx.
  destruct (id x =? id job) eqn:E; [|reflexivity].
  exfalso; unfold find_job in Hf.
  apply (find_none _ _ Hf) in Hx; simpl in Hx; congruence.
Qed.

Lemma completeJob_stale (t : Table) (job r : Job) :
  wf t -> find_job (id job) t = Some r ->
  attempts_remaining r <> attempts_remaining job ->
  completeJob t job = (false, t).
Proof.
  intros Hwf Hf Hne; unfold completeJob, completeJob_stmt.
  rewrite (guarded_stale job r set_complete t Hwf Hf Hne); reflexivity.
Qed.

Lemma failJob_terminal_path_stale (now : Z) (t : Table) (job r : Job)
      (reason : string) :
  wf t -> find_job (id job) t = Some r ->
  attempts_remaining job <= 0 ->
  attempts_remaining r <> attempts_remaining job ->
  failJob now t job reason = (false, t).
Proof.
  intros Hwf Hf Hle Hne; unfold failJob, failJob_stmt.
  assert (Hb : (attempts_remaining job <=? 0) = true) by (apply Z.leb_le; lia).
  rewrite Hb, (guarded_stale job r (set_failed reason) t Hwf Hf Hne).
  reflexivity.
Qed.

(** ** Completion *)

(** C5.  [completeJob] called with the pair (id, attempts_remaining) taken at
    claim time marks the job COMPLETE exactly when the row's current
    [attempts_remaining] equals that value: the statement then matches one
    row, the call resolves [true] and only the status of that row changes;
    otherwise it matches none, the call resolves [false] and the table is
    as before.  Neither the row's deadline nor the time of the call occurs
    in the statement: it holds of every row [r], lease expired or not. *)
Theorem completeJob_version_guard (t : Table) (job r : Job) :
  wf t ->
  find_job (id job) t = Some r ->
  let res := completeJob t job in
  let matched := changes (completeJob_stmt t job) in
  (attempts_remaining r = attempts_remaining job ->
     matched = 1%nat /\ fst res = true /\
     find_job (id job) (snd res) =
       Some (mkJob (id r) COMPLETE (description r) (max_attempts r)
                   (attempts_remaining r) (time_limit_seconds r)
                   (deadline r) (error r))) /\
  (attempts_remaining r <> attempts_remaining job ->
     matched = 0%nat /\ fst res = false /\ snd res = t) /\
  (forall i, i <> id job -> find_job i (snd res) = find_job i t) /\
  (fst res = true <-> matched = 1%nat) /\
  (fst res = false <-> matched = 0%nat).
Proof.
  intros Hwf Hf res matched.
  assert (Hk : (id r =? id job) = true)
    by (apply Z.eqb_eq; apply (find_job_some _ _ _ Hf)).
  assert (Hm : matched =
               if attempts_remaining r =? attempts_remaining job
               then 1%nat else 0%nat).
  { unfold matched, completeJob_stmt; rewrite changes_guarded by exact Hwf.
    rewrite Hf; reflexivity. }
  assert (Hres : fst res = Nat.eqb matched 1) by reflexivity.
  split; [|split; [|split; [|split]]].
  - intros Heq; rewrite Hres, Hm.
    assert (Hb : (attempts_remaining r =? attempts_remaining job) = true)
      by (apply Z.eqb_eq; exact Heq).
    rewrite Hb; repeat split.
    unfold res, completeJob, completeJob_stmt; cbv zeta; cbn [fst snd].
    rewrite find_update by exact set_complete_id.
    rewrite Hf; simpl; rewrite Hk, Hb; reflexivity.
  - intros Hne; unfold res, matched.
    rewrite (completeJob_stale t job r Hwf Hf Hne).
    unfold completeJob_stmt.
    rewrite (guarded_stale job r set_complete t Hwf Hf Hne); auto.
  - intros i Hi; unfold res, completeJob, completeJob_stmt; cbv zeta; cbn [fst snd].
    apply find_update_other; [exact set_complete_id | exact Hi].
  - rewrite Hres; apply Nat.eqb_eq.
  - rewrite Hres, Hm.
    destruct (attempts_remaining r =? attempts_remaining job); simpl;
      split; congruence.
Qed.

Lemma completeJob_version_guard_witness :
  wf [mkJob 1 IN_PROGRESS "a" 3 2 60 (Some 160) None] /\
  find_job 1 [mkJob 1 IN_PROGRESS "a" 3 2 60 (Some 160) None] =
    Some (mkJob 1 IN_PROGRESS "a" 3 2 60 (Some 160) None) /\
  (fst (completeJob [mkJob 1 IN_PROGRESS "a" 3 2 60 (Some 160) None]
                    (mkJob 1 IN_PROGRESS "a" 3 2 60 (Some 100) None)) = true <->
   changes (completeJob_stmt [mkJob 1 IN_PROGRESS "a" 3 2 60 (Some 160) None]
                             (mkJob 1 IN_PROGRESS "a" 3 2 60 (Some 100) None))
   = 1%nat).
Proof.
  assert (Hwf : wf [mkJob 1 IN_PROGRESS "a" 3 2 60 (Some 160) None])
    by (unfold wf; simpl; constructor; [simpl; tauto | constructor]).
  split; [exact Hwf | split; [reflexivity|]].
  exact (proj1 (proj2 (proj2 (proj2
    (completeJob_version_guard
       [mkJob 1 IN_PROGRESS "a" 3 2 60 (Some 160) None]
       (mkJob 1 IN_PROGRESS "a" 3 2 60 (Some 100) None)
       (mkJob 1 IN_PROGRESS "a" 3 2 60 (Some 160) None) Hwf eq_refl))))).
Defined.

(** A call for an id that has no row matches nothing. *)
Lemma completeJob_absent (t : Table) (job : Job) :
  find_job (id job) t = None -> completeJob t job = (false, t).
Proof.
  intros Hf; unfold completeJob, completeJob_stmt.
  rewrite (guarded_absent job _ set_complete t Hf); reflexivity.
Qed.

(** ** Failure *)

(** C3, as the code has it.  [failJob] called with the
    [attempts_remaining] taken at claim time.  When that value is [<= 0]
    the update is guarded by id and by the value: it sets the status to
    FAILED and [error] to the reason if the row still carries the value,
    and matches nothing otherwise.  When the value is positive the update
    is guarded by the id alone: whatever the row's current
    [attempts_remaining], the status becomes PENDING and the deadline what
    the store computes for [now] and [time_limit_seconds]: the date
    [now + time_limit_seconds] when the limit is not negative and the date
    is one the store represents, NULL otherwise.  The call resolves with
    whether exactly one row was matched, and no other row changes. *)
Theorem failJob_transitions (now : Z) (t : Table) (job r : Job)
        (reason : string) :
  wf t ->
  find_job (id job) t = Some r ->
  let res := failJob now t job reason in
  let matched := changes (failJob_stmt now t job reason) in
  (attempts_remaining job <= 0 ->
     (attempts_remaining r = attempts_remaining job ->
        fst res = true /\
        find_job (id job) (snd res) =
          Some (mkJob (id r) FAILED (description r) (max_attempts r)
                      (attempts_remaining r) (time_limit_seconds r)
                      (deadline r) (Some reason))) /\
     (attempts_remaining r <> attempts_remaining job ->
        fst res = false /\ snd res = t)) /\
  (0 < attempts_remaining job ->
     fst res = true /\
     find_job (id job) (snd res) =
       Some (mkJob (id r) PENDING (description r) (max_attempts r)
                   (attempts_remaining r) (time_limit_seconds r)
                   (unixepoch_plus now (time_limit_seconds r)) (error r))) /\
  (representable now (time_limit_seconds r) ->
   unixepoch_plus now (time_limit_seconds r) =
     Some (now + time_limit_seconds r)) /\
  (~ representable now (time_limit_seconds r) ->
   unixepoch_plus now (time_limit_seconds r) = None) /\
  (forall i, i <> id job -> find_job i (snd res) = find_job i t) /\
  (fst res = true <-> matched = 1%nat).
Proof.
  intros Hwf Hf res matched.
  assert (Hk : (id r =? id job) = true)
    by (apply Z.eqb_eq; apply (find_job_some _ _ _ Hf)).
  assert (Hres : fst res = Nat.eqb matched 1) by reflexivity.
  split; [|split; [|split; [apply unixepoch_plus_cases
                           |split; [apply unixepoch_plus_cases|split]]]].
  - intros Hle.
    assert (Hb : (attempts_remaining job <=? 0) = true)
      by (apply Z.leb_le; lia).
    split.
    + intros Heq.
      assert (He : (attempts_remaining r =? attempts_remaining job) = true)
        by (apply Z.eqb_eq; exact Heq).
      unfold res, failJob, failJob_stmt; rewrite Hb; cbv zeta; cbn [fst snd].
      rewrite changes_guarded by exact Hwf.
      rewrite find_update by apply set_failed_id.
      rewrite Hf, He; simpl; rewrite Hk, He; auto.
    + intros Hne; unfold res.
      rewrite (failJob_terminal_path_stale now t job r reason Hwf Hf Hle Hne).
      auto.
  - intros Hpos.
    assert (Hb : (attempts_remaining job <=? 0) = false)
      by (apply Z.leb_gt; lia).
    unfold res, failJob, failJob_stmt; rewrite Hb; cbv zeta; cbn [fst snd].
    rewrite changes_by_id by exact Hwf.
    rewrite find_update by apply set_pending_id.
    rewrite Hf; simpl; rewrite Hk; auto.
  - intros i Hi; unfold res, failJob, failJob_stmt; cbv zeta; cbn [fst snd].
    destruct (attempts_remaining job <=? 0).
    + apply find_update_other; [apply set_failed_id | exact Hi].
    + apply find_update_other_id; [apply set_pending_id | exact Hi].
  - rewrite Hres; apply Nat.eqb_eq.
Qed.

Lemma failJob_transitions_witness :
  wf [mkJob 1 IN_PROGRESS "a" 3 1 60 (Some 160) None] /\
  find_job 1 [mkJob 1 IN_PROGRESS "a" 3 1 60 (Some 160) None] =
    Some (mkJob 1 IN_PROGRESS "a" 3 1 60 (Some 160) None) /\
  fst (failJob 200 [mkJob 1 IN_PROGRESS "a" 3 1 60 (Some 160) None]
               (mkJob 1 IN_PROGRESS "a" 3 2 60 (Some 100) None) "boom") = true /\
  find_job 1 (snd (failJob 200 [mkJob 1 IN_PROGRESS "a" 3 1 60 (Some 160) None]
                     (mkJob 1 IN_PROGRESS "a" 3 2 60 (Some 100) None) "boom")) =
    Some (mkJob 1 PENDING "a" 3 1 60 (Some 260) None).
Proof.
  assert (Hwf : wf [mkJob 1 IN_PROGRESS "a" 3 1 60 (Some 160) None])
    by (unfold wf; simpl; constructor; [simpl; tauto | constructor]).
  split; [exact Hwf | split; [reflexivity|]].
  apply (proj1 (proj2 (failJob_transitions 200
            [mkJob 1 IN_PROGRESS "a" 3 1 60 (Some 160) None]
            (mkJob 1 IN_PROGRESS "a" 3 2 60 (Some 100) None)
            (mkJob 1 IN_PROGRESS "a" 3 1 60 (Some 160) None) "boom" Hwf eq_refl))).
  simpl; lia.
Defined.

(** C3 as stated fails: for a job whose [time_limit_seconds] is negative
    the retry update does not set the deadline to
    [now + time_limit_seconds]; the modifier reads ['+-5 second'] and the
    deadline becomes NULL. *)
Lemma failJob_negative_limit_null_deadline :
  failJob 200 [mkJob 1 IN_PROGRESS "a" 3 2 (-5) None None]
          (mkJob 1 IN_PROGRESS "a" 3 2 (-5) None None) "boom" =
    (true, [mkJob 1 PENDING "a" 3 2 (-5) None None]) /\
  deadline (mkJob 1 PENDING "a" 3 2 (-5) None None) <> Some (200 + -5).
Proof. split; [reflexivity | discriminate]. Qed.

Lemma failJob_absent (now : Z) (t : Table) (job : Job) (reason : string) :
  find_job (id job) t = None -> failJob now t job reason = (false, t).
Proof.
  intros Hf; unfold failJob, failJob_stmt.
  destruct (attempts_remaining job <=? 0).
  - rewrite (guarded_absent job _ (set_failed reason) t Hf); reflexivity.
  - rewrite (update_no_match _ (set_pending now) t); [reflexivity|].
    intros x Hx; destruct (id x =? id job) eqn:E; [|reflexivity].
    exfalso; unfold find_job in Hf.
    apply (find_none _ _ Hf) in Hx; simpl in Hx; congruence.
Qed.

(** ** Claiming *)

Lemma eligible_spec (now : Z) (r : Job) :
  eligible now r = true <->
  (status r = PENDING /\ 0 < attempts_remaining r) \/
  (status r = IN_PROGRESS /\
   (exists d, deadline r = Some d /\ d < now) /\
   0 < attempts_remaining r).
Proof.
  unfold eligible.
  rewrite orb_true_iff, !andb_true_iff, !status_eqb_eq, !Z.ltb_lt.
  rewrite deadline_passed_spec; tauto.
Qed.

Lemma eligible_positive (now : Z) (r : Job) :
  eligible now r = true -> 0 < attempts_remaining r.
Proof. rewrite eligible_spec; tauto. Qed.

Lemma eligible_not_terminal (now : Z) (r : Job) :
  eligible now r = true -> terminal (status r) = false.
Proof. rewrite eligible_spec; intros [[-> _]|[-> _]]; reflexivity. Qed.

Lemma latest_in (best : Job) (rest : list Job) :
  In (latest best rest) (best :: rest).
Proof.
  revert best; induction rest as [|j rest IH]; intros best; simpl.
  - auto.
  - specialize
      (IH (if deadline_ltb (deadline best) (deadline j) then j else best)).
    destruct IH as [H|H]; [|auto].
    destruct (deadline_ltb (deadline best) (deadline j)); rewrite <- H; auto.
Qed.

Lemma latest_ge_best (best : Job) (rest : list Job) :
  deadline_leb (deadline best) (deadline (latest best rest)) = true.
Proof.
  revert best; induction rest as [|j rest IH]; intros best; cbn [latest].
  - apply deadline_leb_refl.
  - specialize
      (IH (if deadline_ltb (deadline best) (deadline j) then j else best)).
    destruct (deadline_ltb (deadline best) (deadline j)) eqn:E; [|exact IH].
    eapply deadline_leb_trans; [apply deadline_ltb_leb; exact E | exact IH].
Qed.

Lemma latest_max (best : Job) (rest : list Job) (x : Job) :
  In x (best :: rest) ->
  deadline_leb (deadline x) (deadline (latest best rest)) = true.
Proof.
  revert best; induction rest as [|j rest IH]; intros best Hin.
  - destruct Hin as [->|[]]; apply deadline_leb_refl.
  - cbn [latest].
    destruct Hin as [->|[->|Hin]].
    + apply (latest_ge_best x (j :: rest)).
    + pose proof (latest_ge_best
                    (if deadline_ltb (deadline best) (deadline x)
                     then x else best) rest) as H.
      destruct (deadline_ltb (deadline best) (deadline x)) eqn:E;
        [exact H|].
      eapply deadline_leb_trans; [|exact H].
      apply deadline_not_ltb_leb; exact E.
    + apply IH; right; exact Hin.
Qed.

(** The sub-select returns the id of an eligible row of latest deadline. *)
Lemma select_some (now : Z) (t : Table) (i : Z) :
  select_next_id now t = Some i ->
  exists r, In r t /\ eligible now r = true /\ id r = i /\
            forall e, In e t -> eligible now e = true ->
                      deadline_leb (deadline e) (deadline r) = true.
Proof.
  unfold select_next_id, order_by_deadline_desc_limit_1.
  destruct (filter (eligible now) t) as [|j rest] eqn:E; simpl; [discriminate|].
  intros H; inversion H; subst i; clear H.
  exists (latest j rest).
  pose proof (latest_in j rest) as Hin; rewrite <- E in Hin.
  apply filter_In in Hin; destruct Hin as [Hin Hel].
  repeat split; auto.
  intros e He Hee; apply latest_max; rewrite <- E.
  apply filter_In; auto.
Qed.

Lemma select_none (now : Z) (t : Table) :
  select_next_id now t = None ->
  forall r, In r t -> eligible now r = false.
Proof.
  unfold select_next_id, order_by_deadline_desc_limit_1.
  destruct (filter (eligible now) t) as [|j rest] eqn:E; simpl; [|discriminate].
  intros _ r Hr; destruct (eligible now r) eqn:Hel; [|reflexivity].
  assert (Hin : In r (filter (eligible now) t)) by (apply filter_In; auto).
  rewrite E in Hin; contradiction.
Qed.

(** What a claim does, row by row. *)
Lemma getNextJob_cases (now : Z) (t : Table) :
  wf t ->
  (getNextJob now t = (None, t) /\
   forall r, In r t -> eligible now r = false)
  \/
  (exists r, In r t /\ eligible now r = true /\
     (forall e, In e t -> eligible now e = true ->
                deadline_leb (deadline e) (deadline r) = true) /\
     fst (getNextJob now t) = Some (lease now r) /\
     find_job (id r) (snd (getNextJob now t)) = Some (lease now r) /\
     (forall i, i <> id r ->
                find_job i (snd (getNextJob now t)) = find_job i t) /\
     map id (snd (getNextJob now t)) = map id t).
Proof.
  intros Hwf; unfold getNextJob.
  destruct (select_next_id now t) as [i|] eqn:E.
  - right; apply select_some in E.
    destruct E as [r [Hin [Hel [Hid Hmax]]]]; subst i.
    exists r; cbn [fst snd]; repeat split; auto.
    + unfold returning, sql_update; cbn [fst snd].
      rewrite (filter_id (id r) t Hwf), (find_job_in t r Hwf Hin).
      reflexivity.
    + rewrite find_update by apply lease_id.
      rewrite (find_job_in t r Hwf Hin); simpl; rewrite Z.eqb_refl.
      reflexivity.
    + intros i Hi; apply find_update_other_id; [apply lease_id | exact Hi].
    + apply update_ids; apply lease_id.
  - left; split; [reflexivity | apply select_none; exact E].
Qed.

Lemma getNextJob_wf (now : Z) (t : Table) :
  wf t -> wf (snd (getNextJob now t)).
Proof.
  intros Hwf; destruct (getNextJob_cases now t Hwf) as [[H _]|[r H]].
  - rewrite H; exact Hwf.
  - unfold wf; destruct H as [_ [_ [_ [_ [_ [_ H]]]]]]; rewrite H; exact Hwf.
Qed.




(** C7.  The job a claim returns is an eligible row whose deadline, as it
    was before the claim, is at least that of every eligible row: among two
    or more eligible jobs the one of latest deadline is taken.  Deadlines
    compare as [ORDER BY] compares them: dates as numbers, a NULL deadline
    before every date. *)
Theorem getNextJob_latest_deadline (now : Z) (t : Table) (j : Job) :
  wf t ->
  fst (getNextJob now t) = Some j ->
  exists r, In r t /\ eligible now r = true /\ id j = id r /\
    forall e, In e t -> eligible now e = true ->
      deadline_leb (deadline e) (deadline r) = true /\
      (forall de dr, deadline e = Some de -> deadline r = Some dr ->
                     de <= dr) /\
      (deadline r = None -> deadline e = None).
Proof.
  intros Hwf Hj.
  destruct (getNextJob_cases now t Hwf)
    as [[Hnone _]|[r [Hin [Hel [Hmax [Hfst _]]]]]].
  - rewrite Hnone in Hj; discriminate.
  - rewrite Hfst in Hj; inversion Hj; subst j.
    exists r; repeat split; auto.
    + intros de dr He Hr; specialize (Hmax e H H0).
      rewrite He, Hr in Hmax; apply deadline_leb_spec in Hmax; exact Hmax.
    + intros Hr; specialize (Hmax e H H0).
      rewrite Hr in Hmax; apply deadline_leb_spec in Hmax.
      destruct (deadline e); [contradiction | reflexivity].
Qed.

Lemma getNextJob_latest_deadline_witness :
  wf [mkJob 1 PENDING "a" 3 3 60 (Some 160) None;
      mkJob 2 PENDING "b" 3 3 90 (Some 190) None;
      mkJob 3 IN_PROGRESS "c" 3 2 10 (Some 120) None] /\
  fst (getNextJob 130 [mkJob 1 PENDING "a" 3 3 60 (Some 160) None;
                       mkJob 2 PENDING "b" 3 3 90 (Some 190) None;
                       mkJob 3 IN_PROGRESS "c" 3 2 10 (Some 120) None]) =
    Some (mkJob 2 IN_PROGRESS "b" 3 2 90 (Some 220) None) /\
  exists r,
    In r [mkJob 1 PENDING "a" 3 3 60 (Some 160) None;
          mkJob 2 PENDING "b" 3 3 90 (Some 190) None;
          mkJob 3 IN_PROGRESS "c" 3 2 10 (Some 120) None] /\
    eligible 130 r = true /\ 2 = id r /\
    forall e,
      In e [mkJob 1 PENDING "a" 3 3 60 (Some 160) None;
            mkJob 2 PENDING "b" 3 3 90 (Some 190) None;
            mkJob 3 IN_PROGRESS "c" 3 2 10 (Some 120) None] ->
      eligible 130 e = true ->
      deadline_leb (deadline e) (deadline r) = true /\
      (forall de dr, deadline e = Some de -> deadline r = Some dr ->
                     de <= dr) /\
      (deadline r = None -> deadline e = None).
Proof.
  assert (Hwf : wf [mkJob 1 PENDING "a" 3 3 60 (Some 160) None;
                    mkJob 2 PENDING "b" 3 3 90 (Some 190) None;
                    mkJob 3 IN_PROGRESS "c" 3 2 10 (Some 120) None]).
  { unfold wf; simpl; repeat constructor; simpl; lia. }
  split; [exact Hwf | split; [reflexivity|]].
  exact (getNextJob_latest_deadline 130 _
           (mkJob 2 IN_PROGRESS "b" 3 2 90 (Some 220) None) Hwf eq_refl).
Defined.

(** ** Leases of zero length *)

Lemma enqueue_find_new (now : Z) (t : Table) (p : JobParams) :
  find_job (fst (enqueueJob now t p)) (snd (enqueueJob now t p)) =
  Some (mkJob (next_id t) PENDING (p_description p) (p_max_attempts p)
              (p_max_attempts p) (p_time_limit_seconds p)
              (unixepoch_plus now (p_time_limit_seconds p)) None).
Proof.
  unfold enqueueJob; cbn [fst snd]; rewrite find_job_snoc.
  rewrite (find_job_absent _ _ (next_id_fresh t)); simpl.
  rewrite Z.eqb_refl; reflexivity.
Qed.

Lemma enqueue_find_old (now : Z) (t : Table) (p : JobParams) (i : Z) :
  i <> next_id t ->
  find_job i (snd (enqueueJob now t p)) = find_job i t.
Proof.
  intros Hne; unfold enqueueJob; cbn [fst snd]; rewrite find_job_snoc.
  destruct (find_job i t); [reflexivity|]; simpl.
  assert (H : (next_id t =? i) = false) by (apply Z.eqb_neq; lia).
  rewrite H; reflexivity.
Qed.

(** C8, as the code has it.  A job enqueued with [time_limit_seconds = 0]
    and at least two attempts is claimed once, at store time [now1], and
    not finalised; no other row is eligible at [now2].  A claim at a store
    time [now2] strictly after [now1] returns that same job and takes one
    more attempt from it, the store time [now1] being a date the store
    represents, as its clock always is; a claim at [now2 <= now1], the same
    second included, returns nothing and leaves the table as it is. *)
Theorem zero_time_limit_reclaim (t0 : Table) (now0 now1 now2 : Z)
        (p : JobParams) (j1 : Job) (t2 : Table) :
  wf t0 ->
  p_time_limit_seconds p = 0 ->
  2 <= p_max_attempts p ->
  getNextJob now1 (snd (enqueueJob now0 t0 p)) = (Some j1, t2) ->
  id j1 = fst (enqueueJob now0 t0 p) ->
  (forall r, In r t0 -> eligible now2 r = false) ->
  attempts_remaining j1 = p_max_attempts p - 1 /\
  (unixepoch_min <= now1 <= unixepoch_max ->
   now1 < now2 ->
     exists j2,
       fst (getNextJob now2 t2) = Some j2 /\
       id j2 = id j1 /\
       attempts_remaining j2 = p_max_attempts p - 2 /\
       find_job (id j1) (snd (getNextJob now2 t2)) = Some j2) /\
  (now2 <= now1 -> getNextJob now2 t2 = (None, t2)).
Proof.
  intros Hwf0 Htls Hmax Hclaim Hid Hothers.
  set (t1 := snd (enqueueJob now0 t0 p)) in *.
  assert (Hwf1 : wf t1) by (apply enqueue_wf; exact Hwf0).
  pose proof (enqueue_find_new now0 t0 p) as Hnew; fold t1 in Hnew.
  assert (Hwf2 : wf t2).
  { pose proof (getNextJob_wf now1 t1 Hwf1) as H.
    rewrite Hclaim in H; exact H. }
  destruct (getNextJob_cases now1 t1 Hwf1)
    as [[Hnone _]|[r [Hin [Hel [_ [Hfst [Hfind [Hoth _]]]]]]]].
  { rewrite Hclaim in Hnone; discriminate. }
  rewrite Hclaim in Hfst, Hfind, Hoth; cbn [fst snd] in Hfst, Hfind, Hoth.
  assert (Hj1 : j1 = lease now1 r) by (inversion Hfst; reflexivity).
  clear Hfst.
  assert (Hr : id r = fst (enqueueJob now0 t0 p))
    by (rewrite <- Hid, Hj1; reflexivity).
  pose proof (find_job_in t1 r Hwf1 Hin) as Hfr.
  rewrite Hr, Hnew in Hfr.
  assert (Hrow : r = mkJob (next_id t0) PENDING (p_description p)
                       (p_max_attempts p) (p_max_attempts p)
                       (p_time_limit_seconds p)
                       (unixepoch_plus now0 (p_time_limit_seconds p)) None)
    by (inversion Hfr; reflexivity).
  clear Hfr.
  assert (Hi : id r = next_id t0) by (rewrite Hrow; reflexivity).
  assert (Har1 : attempts_remaining j1 = p_max_attempts p - 1)
    by (rewrite Hj1, Hrow; reflexivity).
  assert (Hdl : forall d, deadline j1 = Some d -> d = now1).
  { intros d; rewrite Hj1, Hrow; cbn [lease deadline time_limit_seconds].
    rewrite Htls; unfold unixepoch_plus.
    match goal with |- context [if ?c then _ else _] => destruct c end;
      intros H; inversion H; lia. }
  assert (Hclock : unixepoch_min <= now1 <= unixepoch_max ->
                   deadline j1 = Some now1).
  { intros Hc; rewrite Hj1, Hrow; cbn [lease deadline time_limit_seconds].
    rewrite Htls.
    rewrite (proj1 (unixepoch_plus_cases now1 0));
      [f_equal; lia | unfold representable; lia]. }
  assert (Hst : status j1 = IN_PROGRESS) by (rewrite Hj1; reflexivity).
  assert (Hfj : find_job (id j1) t2 = Some j1).
  { rewrite Hj1; exact Hfind. }
  assert (Hrows : forall x, In x t2 -> x = j1 \/ In x t0).
  { intros x Hx; pose proof (find_job_in t2 x Hwf2 Hx) as H.
    destruct (Z.eq_dec (id x) (id r)) as [E|E].
    - left; rewrite E, Hfind, <- Hj1 in H; inversion H; reflexivity.
    - right; rewrite (Hoth (id x) E) in H; unfold t1 in H.
      rewrite enqueue_find_old in H by (rewrite <- Hi; exact E).
      apply find_job_some in H; tauto. }
  split; [exact Har1|].
  destruct (getNextJob_cases now2 t2 Hwf2)
    as [[Hnone Hall]|[x [Hinx [Helx [_ [Hfstx [Hfindx _]]]]]]].
  - split; [|intros _; exact Hnone].
    intros Hc Hlater; exfalso.
    assert (Hel2 : eligible now2 j1 = true).
    { apply eligible_spec; right; split; [exact Hst|].
      split; [exists now1; split; [apply Hclock, Hc | exact Hlater] | lia]. }
    apply find_job_some in Hfj; destruct Hfj as [Hin2 _].
    rewrite (Hall j1 Hin2) in Hel2; discriminate.
  - destruct (Hrows x Hinx) as [->|Hx0];
      [|rewrite (Hothers x Hx0) in Helx; discriminate].
    apply eligible_spec in Helx.
    split.
    + intros _ _; exists (lease now2 j1).
      split; [exact Hfstx|].
      split; [reflexivity|].
      split; [cbn [lease attempts_remaining]; lia | exact Hfindx].
    + intros Hle; exfalso.
      destruct Helx as [[Hs _]|[_ [[d [Hd Hlt]] _]]]; [congruence|].
      apply Hdl in Hd; lia.
Qed.

Lemma zero_time_limit_reclaim_witness :
  wf [] /\ 2 <= p_max_attempts (mkParams "a" 0 2) /\
  unixepoch_min <= 100 <= unixepoch_max /\ 100 < 101 /\
  exists j2,
    fst (getNextJob 101 [mkJob 1 IN_PROGRESS "a" 2 1 0 (Some 100) None]) = Some j2 /\
    id j2 = 1 /\
    attempts_remaining j2 = 2 - 2 /\
    find_job 1 (snd (getNextJob 101 [mkJob 1 IN_PROGRESS "a" 2 1 0 (Some 100) None]))
      = Some j2.
Proof.
  assert (Hwf : wf []) by constructor.
  assert (Hmax : 2 <= p_max_attempts (mkParams "a" 0 2)) by (simpl; lia).
  assert (Hlater : 100 < 101) by lia.
  assert (Hclock : unixepoch_min <= 100 <= unixepoch_max)
    by (unfold unixepoch_min, unixepoch_max; lia).
  split; [exact Hwf
         | split; [exact Hmax | split; [exact Hclock | split; [exact Hlater|]]]].
  refine (proj1 (proj2 (zero_time_limit_reclaim [] 100 100 101
            (mkParams "a" 0 2)
            (mkJob 1 IN_PROGRESS "a" 2 1 0 (Some 100) None)
            [mkJob 1 IN_PROGRESS "a" 2 1 0 (Some 100) None]
            Hwf eq_refl Hmax eq_refl eq_refl _)) Hclock Hlater).
  intros r [].
Defined.

(** C8 as stated fails: a second claim in the same second as the first
    finds the lease not yet expired ([deadline < now] is strict) and returns
    nothing. *)
Lemma zero_time_limit_same_second :
  getNextJob 100 (snd (enqueueJob 100 [] (mkParams "a" 0 2))) =
    (Some (mkJob 1 IN_PROGRESS "a" 2 1 0 (Some 100) None),
     [mkJob 1 IN_PROGRESS "a" 2 1 0 (Some 100) None]) /\
  getNextJob 100 [mkJob 1 IN_PROGRESS "a" 2 1 0 (Some 100) None] =
    (None, [mkJob 1 IN_PROGRESS "a" 2 1 0 (Some 100) None]).
Proof. split; reflexivity. Qed.

(** ** Runs *)

Lemma run_cons (w : world) (e : event) (es : list event) :
  run w (e :: es) = run (step w e) es.
Proof. reflexivity. Qed.

Lemma completeJob_wf (t : Table) (job : Job) :
  wf t -> wf (snd (completeJob t job)).
Proof. intros H; apply update_wf; [apply set_complete_id | exact H]. Qed.

Lemma failJob_wf (now : Z) (t : Table) (job : Job) (reason : string) :
  wf t -> wf (snd (failJob now t job reason)).
Proof.
  intros H; unfold failJob, failJob_stmt; cbv zeta; cbn [snd].
  destruct (attempts_remaining job <=? 0); apply update_wf; auto.
Qed.

Lemma step_wf (w : world) (e : event) : wf (db w) -> wf (db (step w e)).
Proof.
  intros Hwf; destruct e as [now|job|now job reason|now p]; simpl.
  - pose proof (getNextJob_wf now (db w) Hwf) as H.
    destruct (getNextJob now (db w)) as [[j|] t']; exact H.
  - apply completeJob_wf; exact Hwf.
  - apply failJob_wf; exact Hwf.
  - apply (enqueue_wf now (db w) p Hwf).
Qed.

Lemma run_wf (es : list event) (w : world) :
  wf (db w) -> wf (db (run w es)).
Proof.
  revert w; induction es as [|e es IH]; intros w Hwf; [exact Hwf|].
  rewrite run_cons; apply IH, step_wf, Hwf.
Qed.

Lemma leases_granted_cons (i : Z) (t : Table) (g : Job) (gs : list Job) :
  leases_granted i (mkWorld t (g :: gs)) =
  (if id g =? i then 1 else 0) + leases_granted i (mkWorld t gs).
Proof.
  unfold leases_granted; cbn [granted filter].
  destruct (id g =? i); cbn [List.length]; lia.
Qed.

Lemma leases_granted_db (i : Z) (t t' : Table) (gs : list Job) :
  leases_granted i (mkWorld t gs) = leases_granted i (mkWorld t' gs).
Proof. reflexivity. Qed.

(** One statement, seen from one job: either it leaves the job's
    [attempts_remaining] and lease count alone, or it is a claim of that job,
    which had attempts left, takes exactly one and adds one lease. *)
Lemma step_job (w : world) (e : event) (i : Z) (r : Job) :
  wf (db w) ->
  find_job i (db w) = Some r ->
  exists r',
    find_job i (db (step w e)) = Some r' /\ same_job r r' /\
    ((attempts_remaining r' = attempts_remaining r /\
      leases_granted i (step w e) = leases_granted i w)
     \/
     (0 < attempts_remaining r /\
      attempts_remaining r' = attempts_remaining r - 1 /\
      leases_granted i (step w e) = leases_granted i w + 1 /\
      exists now, e = Claim now /\ granted (step w e) = r' :: granted w)).
Proof.
  intros Hwf Hf.
  destruct (find_job_some _ _ _ Hf) as [Hin Hid].
  destruct w as [t gs]; cbn [db] in *.
  destruct e as [now|job|now job reason|now p]; cbn [step db granted].
  - destruct (getNextJob_cases now t Hwf)
      as [[Hnone _]|[r0 [Hin0 [Hel0 [_ [Hfst [Hfind [Hoth _]]]]]]]].
    + rewrite Hnone; cbn [db].
      exists r; unfold same_job; auto 10.
    + destruct (getNextJob now t) as [[j|] t'] eqn:E;
        cbn [fst snd] in *; [|discriminate].
      inversion Hfst; subst j; cbn [db].
      destruct (Z.eq_dec (id r0) i) as [Heq|Hne].
      * assert (r0 = r).
        { pose proof (find_job_in t r0 Hwf Hin0) as H.
          rewrite Heq, Hf in H; inversion H; reflexivity. }
        subst r0; exists (lease now r).
        rewrite <- Hid; split; [exact Hfind|].
        split; [unfold same_job; auto|].
        right; split; [apply (eligible_positive now r Hel0)|].
        split; [reflexivity|].
        split; [|exists now; auto].
        rewrite leases_granted_cons; cbn [lease id].
        rewrite Z.eqb_refl, (leases_granted_db (id r) t' t); lia.
      * exists r; split; [rewrite Hoth by lia; exact Hf|].
        split; [unfold same_job; auto|].
        left; split; [reflexivity|].
        rewrite leases_granted_cons; cbn [lease id].
        assert (Hb : (id r0 =? i) = false) by (apply Z.eqb_neq; exact Hne).
        rewrite Hb; reflexivity.
  - unfold completeJob, completeJob_stmt; cbv zeta; cbn [snd].
    rewrite find_update by apply set_complete_id.
    rewrite Hf; cbn [option_map].
    match goal with |- context [if ?c then _ else _] => destruct c end;
      eexists; (split; [reflexivity|]); unfold same_job; cbn; auto 10.
  - unfold failJob, failJob_stmt; cbv zeta; cbn [snd].
    destruct (attempts_remaining job <=? 0).
    + rewrite find_update by apply set_failed_id.
      rewrite Hf; cbn [option_map].
      match goal with |- context [if ?c then _ else _] => destruct c end;
        eexists; (split; [reflexivity|]); unfold same_job; cbn; auto 10.
    + rewrite find_update by apply set_pending_id.
      rewrite Hf; cbn [option_map].
      match goal with |- context [if ?c then _ else _] => destruct c end;
        eexists; (split; [reflexivity|]); unfold same_job; cbn; auto 10.
  - unfold enqueueJob; cbn [snd]; rewrite find_job_snoc, Hf.
    exists r; unfold same_job; auto 10.
Qed.

Lemma same_job_trans (a b c : Job) :
  same_job a b -> same_job b c -> same_job a c.
Proof. unfold same_job; intuition congruence. Qed.





Lemma empty_world_wf : wf (db empty_world).
Proof. constructor. Qed.




Lemma completeJob_current (t : Table) (job r : Job) :
  wf t -> find_job (id job) t = Some r ->
  attempts_remaining r = attempts_remaining job ->
  fst (completeJob t job) = true /\
  find_job (id job) (snd (completeJob t job)) = Some (set_complete r).
Proof.
  intros Hwf Hf Heq.
  assert (Hk : (id r =? id job) = true)
    by (apply Z.eqb_eq; apply (find_job_some _ _ _ Hf)).
  assert (Hb : (attempts_remaining r =? attempts_remaining job) = true)
    by (apply Z.eqb_eq; exact Heq).
  unfold completeJob, completeJob_stmt; cbv zeta; cbn [fst snd].
  rewrite changes_guarded by exact Hwf.
  rewrite find_update by apply set_complete_id.
  rewrite Hf, Hb; cbn [option_map]; rewrite Hk, Hb; auto.
Qed.

Lemma failJob_terminal_path_current (now : Z) (t : Table) (job r : Job)
      (reason : string) :
  wf t -> find_job (id job) t = Some r ->
  attempts_remaining job <= 0 ->
  attempts_remaining r = attempts_remaining job ->
  fst (failJob now t job reason) = true /\
  find_job (id job) (snd (failJob now t job reason)) =
    Some (set_failed reason r).
Proof.
  intros Hwf Hf Hle Heq.
  assert (Hk : (id r =? id job) = true)
    by (apply Z.eqb_eq; apply (find_job_some _ _ _ Hf)).
  assert (Hb : (attempts_remaining r =? attempts_remaining job) = true)
    by (apply Z.eqb_eq; exact Heq).
  assert (Hl : (attempts_remaining job <=? 0) = true)
    by (apply Z.leb_le; exact Hle).
  unfold failJob, failJob_stmt; rewrite Hl; cbv zeta; cbn [fst snd].
  rewrite changes_guarded by exact Hwf.
  rewrite find_update by apply set_failed_id.
  rewrite Hf, Hb; cbn [option_map]; rewrite Hk, Hb; auto.
Qed.

(** ** Attempt accounting *)


(** ** Jobs without attempts *)





(** ** Payloads of follow-up jobs *)

Lemma append_nil_r (s : string) : append s EmptyString = s.
Proof. induction s as [|c s IH]; simpl; [reflexivity | rewrite IH; reflexivity]. Qed.

Lemma append_assoc (a b c : string) :
  append (append a b) c = append a (append b c).
Proof. induction a as [|x a IH]; simpl; [reflexivity | rewrite IH; reflexivity]. Qed.

Lemma occurs_in_refl (s : string) : occurs_in s s.
Proof. exists EmptyString, EmptyString; simpl; rewrite append_nil_r; reflexivity. Qed.

Lemma occurs_in_after (s a b : string) :
  occurs_in s b -> occurs_in s (append a b).
Proof.
  intros [pre [post ->]]; exists (append a pre), post.
  rewrite append_assoc; reflexivity.
Qed.

Lemma occurs_in_before (s b c : string) :
  occurs_in s b -> occurs_in s (append b c).
Proof.
  intros [pre [post ->]]; exists pre, (append post c).
  rewrite !append_assoc; reflexivity.
Qed.

Lemma occurs_in_join (x : string) (parts : list string) :
  In x parts -> occurs_in x (join_comma parts).
Proof.
  induction parts as [|p rest IH]; intros Hin; [contradiction|].
  destruct rest as [|q rest].
  - destruct Hin as [->|[]]; apply occurs_in_refl.
  - change (join_comma (p :: q :: rest))
      with (append p (String "," (join_comma (q :: rest)))).
    destruct Hin as [->|Hin].
    + apply occurs_in_before, occurs_in_refl.
    + apply occurs_in_after.
      apply (occurs_in_after x (String "," EmptyString)).
      apply IH; exact Hin.
Qed.

Lemma prop_in (k : string) (o : object) (v : json) :
  prop k o = Some v -> In (k, v) o.
Proof.
  induction o as [|[k' v'] o IH]; simpl; [discriminate|].
  destruct (String.eqb_spec k' k) as [->|Hne].
  - intros H; inversion H; auto.
  - auto.
Qed.

(** The text of an object carries each of its members, key and value. *)
Lemma stringify_member (k : string) (v : json) (o : object) :
  prop k o = Some v ->
  occurs_in (append (quote k) (String ":" (JSON_stringify v)))
            (JSON_stringify (JObj o)).
Proof.
  intros Hp; apply prop_in in Hp.
  cbn [JSON_stringify].
  apply (occurs_in_after _ "{"), occurs_in_before, occurs_in_join.
  apply (in_map (fun kv => append (quote (fst kv))
                             (String ":" (JSON_stringify (snd kv))))
                o (k, v) Hp).
Qed.

(** [rest] has neither of the two fields and every other one. *)
Lemma prop_rest_of (k : string) (o : object) :
  prop k (rest_of o) =
  if String.eqb k "time_limit_seconds" || String.eqb k "max_attempts"
  then None else prop k o.
Proof.
  unfold rest_of.
  set (a := "time_limit_seconds"%string); set (b := "max_attempts"%string).
  induction o as [|[k' v] o IH]; cbn [filter prop fst].
  - destruct (String.eqb k a || String.eqb k b); reflexivity.
  - destruct (String.eqb k' a) eqn:E1, (String.eqb k' b) eqn:E2,
             (String.eqb k a) eqn:E3, (String.eqb k b) eqn:E4;
      cbn [orb negb prop]; rewrite ?IH, ?E3, ?E4; cbn [orb];
        try reflexivity;
        destruct (String.eqb_spec k' k); subst; try reflexivity; congruence.
Qed.

Lemma run_same_job (es : list event) (w : world) (i : Z) (r : Job) :
  wf (db w) -> find_job i (db w) = Some r ->
  exists r', find_job i (db (run w es)) = Some r' /\ same_job r r'.
Proof.
  revert w r; induction es as [|e es IH]; intros w r Hwf Hf.
  - exists r; unfold same_job; auto.
  - rewrite run_cons.
    destruct (step_job w e i r Hwf Hf) as [r1 [Hf1 [Hs1 _]]].
    destruct (IH (step w e) r1 (step_wf w e Hwf) Hf1) as [r' [Hf' Hs']].
    exists r'; split; [exact Hf' | eapply same_job_trans; eauto].
Qed.

(** C9.  For a follow-up object [jt] of the array a work function returns,
    the parameters built for it carry as description the text of the whole
    object, [max_attempts] and [time_limit_seconds] included; the client's
    own [enqueueJob] serialises [rest], which has neither field and every
    other one, and stores that text.  The follow-up's text therefore
    contains both members, it is stored as the row's description, no
    statement rewrites it, and a worker that later claims the job receives
    it. *)
Theorem followup_description_keeps_limits
        (t : list object) (jt : object) (ma tls : Z) :
  In jt t ->
  prop "max_attempts" jt = Some (JNum ma) ->
  prop "time_limit_seconds" jt = Some (JNum tls) ->
  let whole := JSON_stringify (JObj jt) in
  let stripped := JSON_stringify (JObj (rest_of jt)) in
  In (Some (mkParams whole tls ma)) (followups t) /\
  client_params jt = Some (mkParams stripped tls ma) /\
  prop "max_attempts" (rest_of jt) = None /\
  prop "time_limit_seconds" (rest_of jt) = None /\
  (forall k, k <> "max_attempts"%string -> k <> "time_limit_seconds"%string ->
             prop k (rest_of jt) = prop k jt) /\
  occurs_in (append (quote "max_attempts")
                    (String ":" (number_to_string ma))) whole /\
  occurs_in (append (quote "time_limit_seconds")
                    (String ":" (number_to_string tls))) whole /\
  (forall now tb, exists i tb',
      client_enqueueJob now tb jt = Some (i, tb') /\
      find_job i tb' =
        Some (mkJob i PENDING stripped ma ma tls (unixepoch_plus now tls) None)) /\
  (forall now tb,
      find_job (fst (enqueueJob now tb (mkParams whole tls ma)))
               (snd (enqueueJob now tb (mkParams whole tls ma))) =
        Some (mkJob (next_id tb) PENDING whole ma ma tls (unixepoch_plus now tls) None)) /\
  (forall es0 now es now' j,
      let w0 := run empty_world es0 in
      let p := mkParams whole tls ma in
      let w := run (step w0 (Enqueue now p)) es in
      fst (getNextJob now' (db w)) = Some j ->
      id j = fst (enqueueJob now (db w0) p) ->
      description j = whole).
Proof.
  intros Hin Hma Htls whole stripped.
  assert (Hf : followup_params jt = Some (mkParams whole tls ma))
    by (unfold followup_params; rewrite Hma, Htls; reflexivity).
  split; [unfold followups; rewrite <- Hf; apply in_map; exact Hin|].
  split; [unfold client_params; rewrite Hma, Htls; reflexivity|].
  split; [rewrite prop_rest_of; reflexivity|].
  split; [rewrite prop_rest_of; reflexivity|].
  split.
  { intros k Hk1 Hk2; rewrite prop_rest_of.
    destruct (String.eqb_spec k "time_limit_seconds"); [contradiction|].
    destruct (String.eqb_spec k "max_attempts"); [contradiction|].
    reflexivity. }
  split; [apply (stringify_member _ (JNum ma)); exact Hma|].
  split; [apply (stringify_member _ (JNum tls)); exact Htls|].
  split.
  { intros now tb; unfold client_enqueueJob, client_params.
    rewrite Hma, Htls; cbn [as_number option_map].
    eexists; eexists; split; [reflexivity|].
    apply (enqueue_find_new now tb (mkParams stripped tls ma)). }
  split; [intros now tb; apply enqueue_find_new|].
  intros es0 now es now' j w0 p w Hj Hid.
  assert (Hwf0 : wf (db w0)) by (apply run_wf, empty_world_wf).
  set (w1 := step w0 (Enqueue now p)) in *.
  assert (Hwf1 : wf (db w1)) by (apply step_wf; exact Hwf0).
  pose proof (enqueue_find_new now (db w0) p) as Hnew.
  destruct (run_same_job es w1 _ _ Hwf1 Hnew) as [r [Hr [_ [Hd _]]]].
  fold w in Hr.
  assert (Hwf : wf (db w)) by (apply run_wf; exact Hwf1).
  destruct (getNextJob_cases now' (db w) Hwf)
    as [[Hn _]|[r0 [Hin0 [_ [_ [Hfst _]]]]]].
  - rewrite Hn in Hj; discriminate.
  - rewrite Hfst in Hj; inversion Hj; subst j; cbn [lease id] in Hid.
    pose proof (find_job_in _ r0 Hwf Hin0) as H.
    rewrite Hid, Hr in H; inversion H; subst r0.
    cbn [lease description]; rewrite Hd; reflexivity.
Qed.

Lemma followup_description_keeps_limits_witness :
  In [("name"%string, JStr "x"); ("max_attempts"%string, JNum 3);
      ("time_limit_seconds"%string, JNum 60)]
     [[("name"%string, JStr "x"); ("max_attempts"%string, JNum 3);
       ("time_limit_seconds"%string, JNum 60)]] /\
  client_params [("name"%string, JStr "x"); ("max_attempts"%string, JNum 3);
                 ("time_limit_seconds"%string, JNum 60)] =
    Some (mkParams
            (JSON_stringify
               (JObj (rest_of [("name"%string, JStr "x"); ("max_attempts"%string, JNum 3);
                               ("time_limit_seconds"%string, JNum 60)])))
            60 3).
Proof.
  assert (Hin : In [("name"%string, JStr "x"); ("max_attempts"%string, JNum 3);
                    ("time_limit_seconds"%string, JNum 60)]
                   [[("name"%string, JStr "x"); ("max_attempts"%string, JNum 3);
                     ("time_limit_seconds"%string, JNum 60)]])
    by (simpl; auto).
  split; [exact Hin|].
  exact (proj1 (proj2 (followup_description_keeps_limits
                         _ _ 3 60 Hin eq_refl eq_refl))).
Defined.



(** ** Stale failures *)

(** A claim does not touch a row that is COMPLETE or FAILED. *)
Lemma getNextJob_keeps_terminal (now : Z) (t : Table) (i : Z) (r : Job) :
  wf t -> find_job i t = Some r -> terminal (status r) = true ->
  find_job i (snd (getNextJob now t)) = Some r.
Proof.
  intros Hwf Hf Hterm.
  destruct (getNextJob_cases now t Hwf)
    as [[Hnone _]|[r0 [Hin0 [Hel0 [_ [_ [_ [Hoth _]]]]]]]].
  - rewrite Hnone; exact Hf.
  - rewrite Hoth; [exact Hf|].
    intros Heq; pose proof (find_job_in t r0 Hwf Hin0) as H.
    rewrite <- Heq, Hf in H; inversion H; subst r0.
    apply eligible_not_terminal in Hel0; congruence.
Qed.

(** C1 at the input where the code departs from it.  Job 1 is claimed by a
    first worker (token 2); its lease runs out and a second worker claims
    it (token 1).  The first worker then reports a failure with its stale
    token: [failJob] takes the retry branch, whose update is keyed by the
    id alone, resolves [true] and rewrites the row under the second
    worker.  [completeJob] with the same stale token changes nothing. *)
Theorem stale_retry_mutates_row :
  let w := run empty_world
               [Enqueue 0 (mkParams "a" 60 3); Claim 0; Claim 100] in
  let stale := mkJob 1 IN_PROGRESS "a" 3 2 60 (Some 60) None in
  held w stale = true /\
  db w = [mkJob 1 IN_PROGRESS "a" 3 1 60 (Some 160) None] /\
  attempts_remaining stale <> 1 /\
  failJob 120 (db w) stale "boom" =
    (true, [mkJob 1 PENDING "a" 3 1 60 (Some 180) None]) /\
  completeJob (db w) stale = (false, db w).
Proof. cbv zeta; repeat split; try reflexivity; simpl; lia. Qed.

(** C2 at the input where the code departs from it.  As above, and the
    second worker completes the job (token 1, current): the row is
    COMPLETE.  The first worker's late failure, token 2, then sets the row
    back to PENDING with a new deadline, and the next claim hands the
    finished job out again. *)
Theorem stale_retry_reopens_complete_job :
  let es := [Enqueue 0 (mkParams "a" 60 3); Claim 0; Claim 100;
             Complete (mkJob 1 IN_PROGRESS "a" 3 1 60 (Some 160) None)] in
  let stale := mkJob 1 IN_PROGRESS "a" 3 2 60 (Some 60) None in
  worker_run empty_world (es ++ [Fail 120 stale "boom"]) = true /\
  db (run empty_world es) = [mkJob 1 COMPLETE "a" 3 1 60 (Some 160) None] /\
  failJob 120 (db (run empty_world es)) stale "boom" =
    (true, [mkJob 1 PENDING "a" 3 1 60 (Some 180) None]) /\
  fst (getNextJob 121 (db (run empty_world (es ++ [Fail 120 stale "boom"]))))
    = Some (mkJob 1 IN_PROGRESS "a" 3 0 60 (Some 181) None).
Proof. cbv zeta; repeat split; reflexivity. Qed.

(** * Further properties of the code *)

(** ** Inserting and listing *)

Lemma next_id_tight (t : Table) :
  next_id t = 1 \/ In (next_id t - 1) (map id t).
Proof.
  unfold next_id; induction t as [|a t IH]; cbn [fold_right map In].
  - left; reflexivity.
  - destruct (Z.max_spec (id a) (fold_right (fun j m => Z.max (id j) m) 0 t))
      as [[Hlt Hmax]|[Hle Hmax]]; rewrite Hmax.
    + destruct IH as [H1|Hin]; [left; exact H1 | right; right; exact Hin].
    + right; left; lia.
Qed.

(** [enqueueJob] with numbers the table can store returns an id above
    every id of the table; the table afterwards lists the old rows,
    unchanged and in their order, and then the new one: PENDING,
    [attempts_remaining = max_attempts], no error, and as deadline what
    [unixepoch('now', '+N second')] gives for its [time_limit_seconds]:
    [now + time_limit_seconds] when that limit is not negative and the date
    is one the store can represent, NULL otherwise.  The new row is found
    under the returned id and the primary key still holds. *)
Theorem enqueueJob_inserts_fresh_row (now : Z) (t : Table) (p : JobParams) :
  wf t ->
  storable p = true ->
  let i := fst (enqueueJob now t p) in
  let t' := snd (enqueueJob now t p) in
  let row := mkJob i PENDING (p_description p) (p_max_attempts p)
                   (p_max_attempts p) (p_time_limit_seconds p)
                   (unixepoch_plus now (p_time_limit_seconds p)) None in
  0 < i /\
  (forall r, In r t -> id r < i) /\
  find_job i t = None /\
  getJobs t' = getJobs t ++ [row] /\
  find_job i t' = Some row /\
  (forall k, k <> i -> find_job k t' = find_job k t) /\
  wf t' /\
  (representable now (p_time_limit_seconds p) ->
   deadline row = Some (now + p_time_limit_seconds p)) /\
  (~ representable now (p_time_limit_seconds p) -> deadline row = None).
Proof.
  intros Hwf _ i t' row.
  split.
  { unfold i, enqueueJob; cbn [fst]; unfold next_id.
    assert (0 <= fold_right (fun j m => Z.max (id j) m) 0 t).
    { clear; induction t as [|a t IH]; cbn [fold_right]; lia. }
    lia. }
  split; [intros r Hr; apply next_id_above; exact Hr|].
  split; [apply find_job_absent, next_id_fresh|].
  split; [reflexivity|].
  split; [apply enqueue_find_new|].
  split; [intros k Hk; apply enqueue_find_old; exact Hk|].
  split; [apply enqueue_wf; exact Hwf|].
  unfold row; cbn [deadline]; apply unixepoch_plus_cases.
Qed.

Lemma enqueueJob_inserts_fresh_row_witness :
  wf [mkJob 1 COMPLETE "a" 3 2 60 (Some 160) None] /\
  storable (mkParams "b" 30 5) = true /\
  find_job 2 (snd (enqueueJob 200 [mkJob 1 COMPLETE "a" 3 2 60 (Some 160) None]
                              (mkParams "b" 30 5))) =
    Some (mkJob 2 PENDING "b" 5 5 30 (Some 230) None).
Proof.
  assert (Hwf : wf [mkJob 1 COMPLETE "a" 3 2 60 (Some 160) None])
    by (unfold wf; simpl; constructor; [simpl; tauto | constructor]).
  split; [exact Hwf|].
  split; [reflexivity|].
  exact (proj1 (proj2 (proj2 (proj2 (proj2
           (enqueueJob_inserts_fresh_row 200 _ (mkParams "b" 30 5)
              Hwf eq_refl)))))).
Defined.

Lemma claim_ids (now : Z) (t : Table) :
  wf t -> map id (snd (getNextJob now t)) = map id t.
Proof.
  intros Hwf; destruct (getNextJob_cases now t Hwf) as [[H _]|[r H]].
  - rewrite H; reflexivity.
  - tauto.
Qed.

Lemma step_ids_eq (w : world) (e : event) :
  wf (db w) ->
  map id (db (step w e)) =
  map id (db w) ++ (if is_enqueue e then [next_id (db w)] else []).
Proof.
  intros Hwf; destruct e as [now|job|now job reason|now p];
    cbn [step is_enqueue]; rewrite ?app_nil_r.
  - pose proof (claim_ids now (db w) Hwf) as H.
    destruct (getNextJob now (db w)) as [[j|] t']; exact H.
  - cbn [db]; unfold completeJob, completeJob_stmt; cbv zeta; cbn [snd].
    apply update_ids, set_complete_id.
  - cbn [db]; unfold failJob, failJob_stmt; cbv zeta; cbn [snd].
    destruct (attempts_remaining job <=? 0); apply update_ids; auto.
  - cbn [db]; unfold enqueueJob; cbn [snd]; rewrite map_app; reflexivity.
Qed.

Lemma next_id_of_range (t : Table) (n : nat) :
  map id t = map Z.of_nat (seq 1 n) -> next_id t = Z.of_nat n + 1.
Proof.
  intros Hids.
  assert (Hup : forall r, In r t -> id r <= Z.of_nat n).
  { intros r Hr; apply (in_map id) in Hr; rewrite Hids in Hr.
    apply in_map_iff in Hr; destruct Hr as [k [Hk Hin]].
    apply in_seq in Hin; lia. }
  destruct (next_id_tight t) as [H1|Hin].
  - destruct n as [|n]; [lia|].
    assert (Hn : In (Z.of_nat (S n)) (map id t)).
    { rewrite Hids; apply in_map, in_seq; lia. }
    apply in_map_iff in Hn; destruct Hn as [r [Hr Hin]].
    apply next_id_above in Hin; lia.
  - pose proof Hin as Hin'.
    apply in_map_iff in Hin; destruct Hin as [r [Hr Hrin]].
    pose proof (Hup r Hrin).
    destruct n as [|n].
    + rewrite Hids in Hin'; destruct Hin'.
    + assert (Hn : In (Z.of_nat (S n)) (map id t)).
      { rewrite Hids; apply in_map, in_seq; lia. }
      apply in_map_iff in Hn; destruct Hn as [r' [Hr' Hin2]].
      apply next_id_above in Hin2; lia.
Qed.

Lemma run_ids_range (es : list event) (w : world) (n : nat) :
  wf (db w) ->
  map id (db w) = map Z.of_nat (seq 1 n) ->
  map id (db (run w es)) =
  map Z.of_nat (seq 1 (n + List.length (filter is_enqueue es))).
Proof.
  revert w n; induction es as [|e es IH]; intros w n Hwf Hids.
  - cbn; rewrite Nat.add_0_r; exact Hids.
  - rewrite run_cons.
    pose proof (step_ids_eq w e Hwf) as Hstep.
    cbn [filter]; destruct (is_enqueue e).
    + cbn [List.length].
      replace (n + S (List.length (filter is_enqueue es)))%nat
        with (S n + List.length (filter is_enqueue es))%nat by lia.
      apply IH; [apply step_wf; exact Hwf|].
      rewrite Hstep, Hids, (next_id_of_range (db w) n Hids).
      rewrite seq_S, map_app; cbn [map]; repeat f_equal; lia.
    + apply IH; [apply step_wf; exact Hwf|].
      rewrite Hstep, app_nil_r; exact Hids.
Qed.

(** Starting from an empty table, whatever statements run and in whatever
    order, the ids in the table are 1, 2, ..., n in this order, [n] being
    the number of [enqueueJob] calls: no statement deletes, reorders or
    renumbers a job. *)
Theorem reachable_ids_are_consecutive (es : list event) :
  map id (getJobs (db (run empty_world es))) =
  map Z.of_nat (seq 1 (List.length (filter is_enqueue es))).
Proof.
  apply (run_ids_range es empty_world 0); [apply empty_world_wf | reflexivity].
Qed.

(** ** What no statement changes *)

Lemma run_job_any (es : list event) (w : world) (i : Z) (r : Job) :
  wf (db w) ->
  find_job i (db w) = Some r ->
  exists r',
    find_job i (db (run w es)) = Some r' /\ same_job r r' /\
    attempts_remaining r' =
      attempts_remaining r - (leases_granted i (run w es) - leases_granted i w)
    /\ leases_granted i w <= leases_granted i (run w es).
Proof.
  revert w r; induction es as [|e es IH]; intros w r Hwf Hf.
  - exists r; cbn [run fold_left]; unfold same_job.
    repeat split; auto; lia.
  - rewrite run_cons.
    destruct (step_job w e i r Hwf Hf) as [r1 [Hf1 [Hs1 Hcase]]].
    destruct (IH (step w e) r1 (step_wf w e Hwf) Hf1)
      as [r' [Hf' [Hs' [Har Hmono]]]].
    exists r'; split; [exact Hf'|].
    split; [eapply same_job_trans; eauto|].
    destruct Hcase as [[Ha Hl]|[_ [Ha [Hl _]]]]; split; lia.
Qed.

(** A job that is in the table stays in it through every run of
    statements, with the id, description, [max_attempts] and
    [time_limit_seconds] it has; its [attempts_remaining] never grows, and
    falls by exactly the number of leases granted on it during the run. *)
Theorem stored_columns_never_change
        (es : list event) (w : world) (i : Z) (r : Job) :
  wf (db w) ->
  find_job i (db w) = Some r ->
  exists r',
    find_job i (db (run w es)) = Some r' /\
    id r' = id r /\
    description r' = description r /\
    max_attempts r' = max_attempts r /\
    time_limit_seconds r' = time_limit_seconds r /\
    attempts_remaining r' <= attempts_remaining r /\
    attempts_remaining r - attempts_remaining r' =
      leases_granted i (run w es) - leases_granted i w.
Proof.
  intros Hwf Hf.
  destruct (run_job_any es w i r Hwf Hf)
    as [r' [Hf' [[H1 [H2 [H3 H4]]] [Har Hmono]]]].
  exists r'; repeat split; auto; lia.
Qed.

Lemma stored_columns_never_change_witness :
  wf (db (mkWorld [mkJob 1 PENDING "a" 3 3 60 (Some 60) None] [])) /\
  exists r',
    find_job 1 (db (run (mkWorld [mkJob 1 PENDING "a" 3 3 60 (Some 60) None] [])
                        [Claim 10; Fail 20 (mkJob 1 IN_PROGRESS "a" 3 2 60 (Some 70) None) "x";
                         Claim 30])) = Some r' /\
    description r' = "a"%string /\
    attempts_remaining r' <= 3.
Proof.
  assert (Hwf : wf (db (mkWorld [mkJob 1 PENDING "a" 3 3 60 (Some 60) None] [])))
    by (unfold wf; simpl; constructor; [simpl; tauto | constructor]).
  split; [exact Hwf|].
  destruct (stored_columns_never_change
              [Claim 10; Fail 20 (mkJob 1 IN_PROGRESS "a" 3 2 60 (Some 70) None) "x";
               Claim 30]
              (mkWorld [mkJob 1 PENDING "a" 3 3 60 (Some 60) None] []) 1
              (mkJob 1 PENDING "a" 3 3 60 (Some 60) None) Hwf eq_refl)
    as [r' [Hf [_ [Hd [_ [_ [Hle _]]]]]]].
  exists r'; split; [exact Hf | split; [exact Hd | exact Hle]].
Defined.

(** ** What every row satisfies *)

Lemma getNextJob_rows (now : Z) (t : Table) (x : Job) :
  wf t -> In x (snd (getNextJob now t)) ->
  In x t \/ exists r0, In r0 t /\ eligible now r0 = true /\ x = lease now r0.
Proof.
  intros Hwf Hx.
  pose proof (getNextJob_wf now t Hwf) as Hwf'.
  destruct (getNextJob_cases now t Hwf)
    as [[Hnone _]|[r0 [Hin0 [Hel0 [_ [_ [Hfind [Hoth _]]]]]]]].
  - rewrite Hnone in Hx; left; exact Hx.
  - pose proof (find_job_in _ x Hwf' Hx) as H.
    destruct (Z.eq_dec (id x) (id r0)) as [E|E].
    + right; exists r0; rewrite E, Hfind in H; inversion H; auto.
    + left; rewrite (Hoth _ E) in H; apply find_job_some in H; tauto.
Qed.

Lemma update_rows (where_ : Job -> bool) (set_ : Job -> Job) (t : Table)
      (x : Job) :
  In x (table_of (sql_update where_ set_ t)) ->
  In x t \/ exists r, In r t /\ where_ r = true /\ x = set_ r.
Proof.
  unfold sql_update, table_of; cbn [snd]; intros Hx.
  apply in_map_iff in Hx; destruct Hx as [r [Hr Hin]].
  destruct (where_ r) eqn:E; [right; exists r; auto | left; subst; exact Hin].
Qed.

Lemma step_rows_ok (w : world) (e : event) :
  wf (db w) ->
  (forall r, In r (db w) -> row_ok r) ->
  forall r, In r (db (step w e)) -> row_ok r.
Proof.
  intros Hwf Hok x Hx.
  destruct e as [now|job|now job reason|now p]; cbn [step] in Hx.
  - assert (Hx' : In x (snd (getNextJob now (db w))))
      by (destruct (getNextJob now (db w)) as [[j|] t']; exact Hx).
    destruct (getNextJob_rows now (db w) x Hwf Hx')
      as [Hin|[r0 [Hin0 [Hel0 ->]]]]; [apply Hok; exact Hin|].
    destruct (Hok r0 Hin0) as [Hle _].
    apply eligible_positive in Hel0.
    unfold row_ok; cbn; repeat split; try lia; discriminate.
  - cbn [db] in Hx; unfold completeJob, completeJob_stmt in Hx.
    cbv zeta in Hx; cbn [snd] in Hx.
    destruct (update_rows _ _ _ _ Hx) as [Hin|[r [Hin [_ ->]]]];
      [apply Hok; exact Hin|].
    destruct (Hok r Hin) as [Hle _].
    unfold row_ok; cbn; repeat split; try lia; discriminate.
  - cbn [db] in Hx; unfold failJob, failJob_stmt in Hx.
    cbv zeta in Hx; cbn [snd] in Hx.
    destruct (attempts_remaining job <=? 0) eqn:Eb.
    + destruct (update_rows _ _ _ _ Hx) as [Hin|[r [Hin [Hw ->]]]];
        [apply Hok; exact Hin|].
      destruct (Hok r Hin) as [Hle _].
      apply andb_true_iff in Hw; destruct Hw as [_ Hw].
      apply Z.eqb_eq in Hw; apply Z.leb_le in Eb.
      unfold row_ok; cbn; repeat split; try lia; discriminate.
    + destruct (update_rows _ _ _ _ Hx) as [Hin|[r [Hin [_ ->]]]];
        [apply Hok; exact Hin|].
      destruct (Hok r Hin) as [Hle _].
      unfold row_ok; cbn; repeat split; try lia; discriminate.
  - cbn [db] in Hx; unfold enqueueJob in Hx; cbn [snd] in Hx.
    apply in_app_iff in Hx; destruct Hx as [Hin|[<-|[]]];
      [apply Hok; exact Hin|].
    unfold row_ok; cbn; repeat split; try lia; discriminate.
Qed.

Lemma run_rows_ok (es : list event) (w : world) :
  wf (db w) ->
  (forall r, In r (db w) -> row_ok r) ->
  forall r, In r (db (run w es)) -> row_ok r.
Proof.
  revert w; induction es as [|e es IH]; intros w Hwf Hok; [exact Hok|].
  rewrite run_cons; apply IH; [apply step_wf | apply step_rows_ok]; auto.
Qed.

(** In every table the statements can produce from an empty one, called in
    any order and with any arguments, each job has
    [attempts_remaining <= max_attempts]; a job IN_PROGRESS has
    [0 <= attempts_remaining < max_attempts]; a job FAILED has no attempt
    left and an error message. *)
Theorem reachable_rows_ok (es : list event) (r : Job) :
  In r (getJobs (db (run empty_world es))) ->
  attempts_remaining r <= max_attempts r /\
  (status r = IN_PROGRESS ->
   0 <= attempts_remaining r < max_attempts r) /\
  (status r = FAILED ->
   attempts_remaining r <= 0 /\ exists reason, error r = Some reason).
Proof.
  intros Hin.
  destruct (run_rows_ok es empty_world empty_world_wf
              (fun r (H : In r (db empty_world)) => match H with end) r Hin)
    as [H1 [H2 H3]].
  split; [exact H1 | split; [exact H2|]].
  intros Hs; destruct (H3 Hs) as [Hle Herr]; split; [exact Hle|].
  destruct (error r) as [reason|]; [eauto | congruence].
Qed.

Lemma reachable_rows_ok_witness :
  In (mkJob 1 FAILED "a" 1 0 60 (Some 70) (Some "x"%string))
     (getJobs (db (run empty_world
                       [Enqueue 0 (mkParams "a" 60 1); Claim 10;
                        Fail 20 (mkJob 1 IN_PROGRESS "a" 1 0 60 (Some 70) None) "x"])))
  /\ 0 <= 1.
Proof.
  assert (Hin : In (mkJob 1 FAILED "a" 1 0 60 (Some 70) (Some "x"%string))
     (getJobs (db (run empty_world
                       [Enqueue 0 (mkParams "a" 60 1); Claim 10;
                        Fail 20 (mkJob 1 IN_PROGRESS "a" 1 0 60 (Some 70) None) "x"]))))
    by (left; reflexivity).
  split; [exact Hin|].
  exact (proj1 (reachable_rows_ok _ _ Hin)).
Defined.

(** ** Leases *)

Lemma step_claim (w : world) (now : Z) :
  db (step w (Claim now)) = snd (getNextJob now (db w)) /\
  granted (step w (Claim now)) =
    match fst (getNextJob now (db w)) with
    | Some j => j :: granted w
    | None => granted w
    end.
Proof.
  cbn [step]; destruct (getNextJob now (db w)) as [[j|] t']; auto.
Qed.

Lemma step_keeps_lease (w : world) (e : event) (j : Job) :
  wf (db w) ->
  find_job (id j) (db w) = Some j ->
  status j = IN_PROGRESS ->
  leaves_lease j e ->
  find_job (id j) (db (step w e)) = Some j /\
  leases_granted (id j) (step w e) = leases_granted (id j) w.
Proof.
  intros Hwf Hf Hst Hq.
  destruct e as [now|job|now job reason|now p]; cbn [leaves_lease] in Hq.
  - destruct (step_claim w now) as [Hdb Hgr].
    destruct w as [t gs]; cbn [db granted] in *.
    unfold leases_granted; rewrite Hdb, Hgr.
    destruct (getNextJob_cases now t Hwf)
      as [[Hnone _]|[r0 [Hin0 [Hel0 [_ [Hfst [_ [Hoth _]]]]]]]].
    + rewrite Hnone; cbn [fst snd granted]; auto.
    + assert (Hne : id r0 <> id j).
      { intros Heq; pose proof (find_job_in t r0 Hwf Hin0) as H.
        rewrite Heq, Hf in H; inversion H; subst r0.
        apply eligible_spec in Hel0.
        destruct Hel0 as [[Hs _]|[_ [Hd _]]]; [congruence|].
        apply deadline_passed_spec in Hd; congruence. }
      rewrite Hfst; cbn [granted filter lease id].
      assert (Hb : (id r0 =? id j) = false) by (apply Z.eqb_neq; exact Hne).
      rewrite Hb; split; [|reflexivity].
      rewrite Hoth by (intros H; apply Hne; rewrite H; reflexivity).
      exact Hf.
  - cbn [step db]; split; [|reflexivity].
    unfold completeJob, completeJob_stmt; cbv zeta; cbn [snd].
    rewrite find_update_other; [exact Hf | apply set_complete_id | lia].
  - cbn [step db]; split; [|reflexivity].
    unfold failJob, failJob_stmt; cbv zeta; cbn [snd].
    destruct (attempts_remaining job <=? 0).
    + rewrite find_update_other; [exact Hf | apply set_failed_id | lia].
    + rewrite find_update_other_id; [exact Hf | apply set_pending_id | lia].
  - cbn [step db]; split; [|reflexivity].
    unfold enqueueJob; cbn [snd]; rewrite find_job_snoc, Hf; reflexivity.
Qed.

Lemma run_keeps_lease (es : list event) (w : world) (j : Job) :
  wf (db w) ->
  find_job (id j) (db w) = Some j ->
  status j = IN_PROGRESS ->
  Forall (leaves_lease j) es ->
  find_job (id j) (db (run w es)) = Some j /\
  leases_granted (id j) (run w es) = leases_granted (id j) w.
Proof.
  revert w; induction es as [|e es IH]; intros w Hwf Hf Hst Hq.
  - split; reflexivity || exact Hf.
  - inversion Hq as [|? ? He Hes]; subst; rewrite run_cons.
    destruct (step_keeps_lease w e j Hwf Hf Hst He) as [Hf1 Hl1].
    destruct (IH (step w e) (step_wf w e Hwf) Hf1 Hst Hes) as [Hf2 Hl2].
    split; [exact Hf2 | lia].
Qed.

(** A lease holds until its deadline.  After [getNextJob] has returned job
    [j] at store time [now], its deadline is what the store computes for
    [now] and [time_limit_seconds]: the date [now + time_limit_seconds], or
    NULL when the limit is negative or the date beyond what the store
    represents.  Take any run of statements in which nobody finalises [j]
    and no claim is made at a store time after the deadline: the row of
    [j] is still exactly what the claim returned, no further lease on [j]
    was granted, and a claim at such a time does not return [j].  The row
    is eligible again exactly from the first second after the deadline, if
    it has attempts left; under a NULL deadline never. *)
Theorem lease_holds_until_deadline
        (w : world) (now : Z) (j : Job) (es : list event) :
  wf (db w) ->
  fst (getNextJob now (db w)) = Some j ->
  Forall (leaves_lease j) es ->
  let w1 := step w (Claim now) in
  let w2 := run w1 es in
  deadline j = unixepoch_plus now (time_limit_seconds j) /\
  (representable now (time_limit_seconds j) ->
   deadline j = Some (now + time_limit_seconds j)) /\
  (~ representable now (time_limit_seconds j) -> deadline j = None) /\
  find_job (id j) (db w2) = Some j /\
  leases_granted (id j) w2 = leases_granted (id j) w1 /\
  (forall now2 j2,
      (forall d, deadline j = Some d -> now2 <= d) ->
      fst (getNextJob now2 (db w2)) = Some j2 -> id j2 <> id j) /\
  (forall now2, eligible now2 j = true <->
                (exists d, deadline j = Some d /\ d < now2) /\
                0 < attempts_remaining j) /\
  (deadline j = None -> forall now2, eligible now2 j = false).
Proof.
  intros Hwf Hj Hq w1 w2.
  destruct (step_claim w now) as [Hdb Hgr]; fold w1 in Hdb, Hgr.
  destruct (getNextJob_cases now (db w) Hwf)
    as [[Hnone _]|[r0 [Hin0 [Hel0 [_ [Hfst [Hfind _]]]]]]].
  { rewrite Hnone in Hj; discriminate. }
  assert (Hj' : j = lease now r0) by (rewrite Hfst in Hj; congruence).
  clear Hj.
  assert (Hst : status j = IN_PROGRESS) by (rewrite Hj'; reflexivity).
  assert (Hdl : deadline j = unixepoch_plus now (time_limit_seconds j))
    by (rewrite Hj'; reflexivity).
  assert (Hwf1 : wf (db w1)) by (apply step_wf; exact Hwf).
  assert (Hf1 : find_job (id j) (db w1) = Some j).
  { rewrite Hdb, Hj'; exact Hfind. }
  destruct (run_keeps_lease es w1 j Hwf1 Hf1 Hst Hq) as [Hf2 Hl2].
  fold w2 in Hf2, Hl2.
  assert (Hel : forall now2, eligible now2 j = true <->
                             (exists d, deadline j = Some d /\ d < now2) /\
                             0 < attempts_remaining j).
  { intros now2; rewrite eligible_spec; rewrite Hst.
    split; [intros [[H _]|[_ H]]; [discriminate | exact H] | auto]. }
  split; [exact Hdl|].
  split; [rewrite Hdl; apply unixepoch_plus_cases|].
  split; [rewrite Hdl; apply unixepoch_plus_cases|].
  split; [exact Hf2|].
  split; [exact Hl2|].
  split; [|split; [exact Hel|]].
  - intros now2 j2 Hle Hj2 Hid.
    assert (Hwf2 : wf (db w2)) by (apply run_wf; exact Hwf1).
    destruct (getNextJob_cases now2 (db w2) Hwf2)
      as [[Hn _]|[r2 [Hin2 [Hel2 [_ [Hfst2 _]]]]]].
    + rewrite Hn in Hj2; discriminate.
    + rewrite Hfst2 in Hj2; inversion Hj2; subst j2; cbn [lease id] in Hid.
      pose proof (find_job_in _ r2 Hwf2 Hin2) as H.
      rewrite Hid, Hf2 in H; inversion H; subst r2.
      apply Hel in Hel2; destruct Hel2 as [[d [Hd Hlt]] _].
      specialize (Hle d Hd); lia.
  - intros Hnull now2.
    destruct (eligible now2 j) eqn:E; [|reflexivity].
    apply Hel in E; destruct E as [[d [Hd _]] _]; congruence.
Qed.

Lemma lease_holds_until_deadline_witness :
  wf (db (mkWorld [mkJob 1 PENDING "a" 3 3 60 (Some 60) None] [])) /\
  Forall (leaves_lease (mkJob 1 IN_PROGRESS "a" 3 2 60 (Some 70) None))
         [Claim 50; Enqueue 55 (mkParams "b" 5 1); Claim 70] /\
  find_job 1 (db (run (step (mkWorld [mkJob 1 PENDING "a" 3 3 60 (Some 60) None] [])
                            (Claim 10))
                      [Claim 50; Enqueue 55 (mkParams "b" 5 1); Claim 70])) =
    Some (mkJob 1 IN_PROGRESS "a" 3 2 60 (Some 70) None).
Proof.
  assert (Hwf : wf (db (mkWorld [mkJob 1 PENDING "a" 3 3 60 (Some 60) None] [])))
    by (unfold wf; simpl; constructor; [simpl; tauto | constructor]).
  assert (Hq : Forall (leaves_lease (mkJob 1 IN_PROGRESS "a" 3 2 60 (Some 70) None))
                      [Claim 50; Enqueue 55 (mkParams "b" 5 1); Claim 70])
    by (repeat constructor).
  split; [exact Hwf | split; [exact Hq|]].
  exact (proj1 (proj2 (proj2 (proj2 (lease_holds_until_deadline
                         (mkWorld [mkJob 1 PENDING "a" 3 3 60 (Some 60) None] [])
                         10 (mkJob 1 IN_PROGRESS "a" 3 2 60 (Some 70) None)
                         [Claim 50; Enqueue 55 (mkParams "b" 5 1); Claim 70]
                         Hwf eq_refl Hq))))).
Defined.

Lemma granted_step (w : world) (e : event) (g : Job) :
  In g (granted (step w e)) ->
  In g (granted w) \/
  exists now, e = Claim now /\ fst (getNextJob now (db w)) = Some g.
Proof.
  destruct e as [now|job|now job reason|now p]; cbn [step granted];
    try (intros H; left; exact H).
  destruct (getNextJob now (db w)) as [[j|] t'] eqn:E; cbn [granted fst].
  - intros [Hj|H]; [right; exists now; subst j; rewrite E; split; reflexivity
                   | left; exact H].
  - intros H; left; exact H.
Qed.

Lemma granted_grows (w : world) (e : event) (g : Job) :
  In g (granted w) -> In g (granted (step w e)).
Proof.
  destruct e as [now|job|now job reason|now p]; cbn [step granted];
    try (intros H; exact H).
  destruct (getNextJob now (db w)) as [[j|] t']; cbn [granted];
    intros H; [right; exact H | exact H].
Qed.

Lemma step_tokens_ok (w : world) (e : event) :
  wf (db w) -> tokens_ok w -> tokens_ok (step w e).
Proof.
  intros Hwf Hok g Hg.
  destruct (granted_step w e g Hg) as [Hold|[now [-> Hnew]]].
  - destruct (Hok g Hold) as [g0 [r [Hg0 [Hid0 [Hf [Ha0 Hle]]]]]].
    destruct (find_job_some _ _ _ Hf) as [_ Hidr].
    destruct (step_job w e (id g) r Hwf Hf)
      as [r' [Hf' [[Hid' _] [[Ha Hl]|[_ [Ha [_ [now [_ Hgr]]]]]]]]].
    + exists g0, r'; repeat split; auto using granted_grows; lia.
    + exists r', r'; rewrite Hgr; repeat split; auto.
      * left; reflexivity.
      * lia.
      * lia.
  - destruct (step_claim w now) as [Hdb Hgr].
    destruct (getNextJob_cases now (db w) Hwf)
      as [[Hnone _]|[r0 [_ [_ [_ [Hfst [Hfind _]]]]]]].
    + rewrite Hnone in Hnew; discriminate.
    + assert (Hg' : g = lease now r0) by (rewrite Hfst in Hnew; congruence).
      exists g, g; rewrite Hdb; repeat split; auto; [|lia].
      rewrite Hg'; exact Hfind.
Qed.

Lemma run_tokens_ok (es : list event) (w : world) :
  wf (db w) -> tokens_ok w -> tokens_ok (run w es).
Proof.
  revert w; induction es as [|e es IH]; intros w Hwf Hok; [exact Hok|].
  rewrite run_cons; apply IH; [apply step_wf | apply step_tokens_ok]; auto.
Qed.

Lemma guarded_result (t : Table) (job r : Job) :
  wf t -> find_job (id job) t = Some r ->
  fst (completeJob t job) =
    (attempts_remaining r =? attempts_remaining job) /\
  (attempts_remaining job <= 0 ->
   forall now reason,
     fst (failJob now t job reason) =
       (attempts_remaining r =? attempts_remaining job)).
Proof.
  intros Hwf Hf; split.
  - unfold completeJob, completeJob_stmt; cbv zeta; cbn [fst].
    rewrite changes_guarded by exact Hwf; rewrite Hf.
    destruct (attempts_remaining r =? attempts_remaining job); reflexivity.
  - intros Hle now reason.
    assert (Hb : (attempts_remaining job <=? 0) = true)
      by (apply Z.leb_le; exact Hle).
    unfold failJob, failJob_stmt; rewrite Hb; cbv zeta; cbn [fst].
    rewrite changes_guarded by exact Hwf; rewrite Hf.
    destruct (attempts_remaining r =? attempts_remaining job); reflexivity.
Qed.

(** Only the newest lease finalises.  In any table reached from an empty
    one, for any row [g] that [getNextJob] has handed out: [completeJob]
    resolves [true] exactly when no lease on the same job carries a smaller
    [attempts_remaining], that is when [g] is the lease granted last; so
    does [failJob] when it takes its FAILED branch.  For an older lease
    [completeJob] resolves [false] and changes nothing. *)
Theorem newest_lease_wins (es : list event) (g : Job) :
  let w := run empty_world es in
  In g (granted w) ->
  (fst (completeJob (db w) g) = true <-> newest_lease w g) /\
  (attempts_remaining g <= 0 ->
   forall now reason,
     fst (failJob now (db w) g reason) = true <-> newest_lease w g) /\
  (~ newest_lease w g -> completeJob (db w) g = (false, db w)).
Proof.
  intros w Hg.
  assert (Hwf : wf (db w)) by (apply run_wf, empty_world_wf).
  assert (Hok : tokens_ok w).
  { apply run_tokens_ok; [apply empty_world_wf | intros x []]. }
  destruct (Hok g Hg) as [g0 [r [Hg0 [Hid0 [Hf [Ha0 Hle]]]]]].
  assert (Hiff : attempts_remaining r = attempts_remaining g <->
                 newest_lease w g).
  { split.
    - intros Heq g' Hg' Hid'.
      destruct (Hok g' Hg') as [_ [r' [_ [_ [Hf' [_ Hle']]]]]].
      rewrite Hid', Hf in Hf'; inversion Hf'; subst r'; lia.
    - intros Hnew; specialize (Hnew g0 Hg0 Hid0); lia. }
  destruct (guarded_result (db w) g r Hwf Hf) as [Hc Hfail].
  split; [rewrite Hc, Z.eqb_eq; exact Hiff|].
  split.
  - intros Hle0 now reason.
    rewrite (Hfail Hle0 now reason), Z.eqb_eq; exact Hiff.
  - intros Hnot; apply (completeJob_stale (db w) g r Hwf Hf).
    intros Heq; apply Hnot, Hiff, Heq.
Qed.

Lemma newest_lease_wins_witness :
  In (mkJob 1 IN_PROGRESS "a" 3 2 60 (Some 60) None)
     (granted (run empty_world
                   [Enqueue 0 (mkParams "a" 60 3); Claim 0; Claim 100])) /\
  completeJob
    (db (run empty_world [Enqueue 0 (mkParams "a" 60 3); Claim 0; Claim 100]))
    (mkJob 1 IN_PROGRESS "a" 3 2 60 (Some 60) None) =
  (false,
   db (run empty_world [Enqueue 0 (mkParams "a" 60 3); Claim 0; Claim 100])).
Proof.
  assert (Hin : In (mkJob 1 IN_PROGRESS "a" 3 2 60 (Some 60) None)
     (granted (run empty_world
                   [Enqueue 0 (mkParams "a" 60 3); Claim 0; Claim 100])))
    by (right; left; reflexivity).
  split; [exact Hin|].
  apply (proj2 (proj2 (newest_lease_wins _ _ Hin))).
  intros Hnew.
  specialize (Hnew (mkJob 1 IN_PROGRESS "a" 3 1 60 (Some 160) None)
                   (or_introl eq_refl) eq_refl).
  simpl in Hnew; lia.
Defined.

(** ** How statements compose *)

Lemma next_id_ext (t1 t2 : Table) :
  map id t1 = map id t2 -> next_id t1 = next_id t2.
Proof.
  unfold next_id; revert t2; induction t1 as [|a t1 IH]; intros [|b t2] H;
    try discriminate; [reflexivity|].
  cbn [map] in H; inversion H as [[Ha Ht]]; cbn [fold_right].
  specialize (IH t2 Ht); lia.
Qed.

Lemma update_snoc_other (where_ : Job -> bool) (set_ : Job -> Job)
      (t : Table) (n : Job) :
  where_ n = false ->
  sql_update where_ set_ (t ++ [n]) =
  (changes (sql_update where_ set_ t),
   returning (sql_update where_ set_ t),
   table_of (sql_update where_ set_ t) ++ [n]).
Proof.
  intros Hn; unfold sql_update, changes, returning, table_of; cbn [fst snd].
  rewrite filter_app, !map_app; cbn [filter map]; rewrite Hn.
  cbn [map]; rewrite !app_nil_r; reflexivity.
Qed.

Lemma enqueue_after_update (where_ : Job -> bool) (set_ : Job -> Job)
      (now : Z) (t : Table) (p : JobParams) :
  (forall r, id (set_ r) = id r) ->
  (forall n, id n = next_id t -> where_ n = false) ->
  let u := sql_update where_ set_ t in
  let u' := sql_update where_ set_ (snd (enqueueJob now t p)) in
  changes u' = changes u /\
  fst (enqueueJob now (table_of u) p) = fst (enqueueJob now t p) /\
  snd (enqueueJob now (table_of u) p) = table_of u'.
Proof.
  intros Hset Hn u u'.
  assert (Hid : next_id (table_of u) = next_id t)
    by (apply next_id_ext, update_ids, Hset).
  unfold u', enqueueJob; cbn [fst snd].
  rewrite update_snoc_other by (apply Hn; reflexivity).
  cbn [changes table_of fst snd]; fold u; rewrite Hid; auto.
Qed.

(** Inserting a job and finalising another commute.  When the job to
    finalise does not bear the id the insert is about to give (it is a row
    of the table), [enqueueJob] followed by [completeJob] or [failJob]
    leaves the same table, returns the same id and resolves the same
    boolean as the two calls in the other order. *)
Theorem enqueue_commutes_with_finalise
        (now now' : Z) (t : Table) (p : JobParams) (job : Job)
        (reason : string) :
  id job <> next_id t ->
  (fst (enqueueJob now (snd (completeJob t job)) p) = fst (enqueueJob now t p) /\
   snd (enqueueJob now (snd (completeJob t job)) p) =
     snd (completeJob (snd (enqueueJob now t p)) job) /\
   fst (completeJob (snd (enqueueJob now t p)) job) = fst (completeJob t job))
  /\
  (fst (enqueueJob now (snd (failJob now' t job reason)) p) =
     fst (enqueueJob now t p) /\
   snd (enqueueJob now (snd (failJob now' t job reason)) p) =
     snd (failJob now' (snd (enqueueJob now t p)) job reason) /\
   fst (failJob now' (snd (enqueueJob now t p)) job reason) =
     fst (failJob now' t job reason)).
Proof.
  intros Hne.
  assert (Hk : forall q n, id n = next_id t ->
                           ((id n =? id job) && q n) = false).
  { intros q n Hn.
    assert (H : (id n =? id job) = false) by (apply Z.eqb_neq; lia).
    rewrite H; reflexivity. }
  assert (Hk' : forall n, id n = next_id t -> (id n =? id job) = false)
    by (intros n Hn; apply Z.eqb_neq; lia).
  split.
  - unfold completeJob, completeJob_stmt; cbv zeta; cbn [fst snd].
    destruct (enqueue_after_update
                (fun r => (id r =? id job)
                          && (attempts_remaining r =? attempts_remaining job))
                set_complete now t p set_complete_id
                (Hk (fun r => attempts_remaining r =? attempts_remaining job)))
      as [H1 [H2 H3]].
    rewrite H1; auto.
  - unfold failJob, failJob_stmt; cbv zeta.
    destruct (attempts_remaining job <=? 0); cbn [fst snd].
    + destruct (enqueue_after_update
                  (fun r => (id r =? id job)
                            && (attempts_remaining r =? attempts_remaining job))
                  (set_failed reason) now t p (set_failed_id reason)
                  (Hk (fun r => attempts_remaining r =? attempts_remaining job)))
        as [H1 [H2 H3]].
      rewrite H1; auto.
    + destruct (enqueue_after_update
                  (fun r => id r =? id job)
                  (set_pending now') now t p (set_pending_id now') Hk')
        as [H1 [H2 H3]].
      rewrite H1; auto.
Qed.

Lemma enqueue_commutes_with_finalise_witness :
  id (mkJob 1 IN_PROGRESS "a" 3 2 60 (Some 60) None) <>
    next_id [mkJob 1 IN_PROGRESS "a" 3 2 60 (Some 60) None] /\
  snd (enqueueJob 5 (snd (completeJob [mkJob 1 IN_PROGRESS "a" 3 2 60 (Some 60) None]
                                      (mkJob 1 IN_PROGRESS "a" 3 2 60 (Some 60) None)))
                  (mkParams "b" 9 1)) =
  snd (completeJob (snd (enqueueJob 5 [mkJob 1 IN_PROGRESS "a" 3 2 60 (Some 60) None]
                                    (mkParams "b" 9 1)))
                   (mkJob 1 IN_PROGRESS "a" 3 2 60 (Some 60) None)).
Proof.
  assert (Hne : id (mkJob 1 IN_PROGRESS "a" 3 2 60 (Some 60) None) <>
                next_id [mkJob 1 IN_PROGRESS "a" 3 2 60 (Some 60) None])
    by (vm_compute; discriminate).
  split; [exact Hne|].
  exact (proj1 (proj2 (proj1 (enqueue_commutes_with_finalise
                                5 0 _ (mkParams "b" 9 1) _ "x" Hne)))).
Defined.

Lemma update_twice (where_ : Job -> bool) (set_ : Job -> Job) (t : Table) :
  (forall r, where_ (set_ r) = where_ r) ->
  (forall r, set_ (set_ r) = set_ r) ->
  changes (sql_update where_ set_ (table_of (sql_update where_ set_ t))) =
    changes (sql_update where_ set_ t) /\
  table_of (sql_update where_ set_ (table_of (sql_update where_ set_ t))) =
    table_of (sql_update where_ set_ t).
Proof.
  intros Hw Hs; unfold sql_update, changes, table_of; cbn [fst snd].
  induction t as [|a t [IH1 IH2]]; cbn [map filter]; [auto|].
  destruct (where_ a) eqn:Ea.
  - rewrite Hw, Ea, Hs; cbn [List.length]; rewrite IH1, IH2; auto.
  - rewrite Ea; rewrite IH2; auto.
Qed.

(** Finalising twice is finalising once: a second identical call of
    [completeJob], or of [failJob] at the same store time, matches the
    same rows, resolves the same boolean and leaves the table as the first
    call left it. *)
Theorem finalise_twice (now : Z) (t : Table) (job : Job) (reason : string) :
  completeJob (snd (completeJob t job)) job = completeJob t job /\
  failJob now (snd (failJob now t job reason)) job reason =
    failJob now t job reason.
Proof.
  split.
  - unfold completeJob, completeJob_stmt; cbv zeta; cbn [snd].
    destruct (update_twice
                (fun r => (id r =? id job)
                          && (attempts_remaining r =? attempts_remaining job))
                set_complete t) as [H1 H2]; [reflexivity | reflexivity |].
    rewrite H1, H2; reflexivity.
  - unfold failJob, failJob_stmt; cbv zeta.
    destruct (attempts_remaining job <=? 0); cbn [snd].
    + destruct (update_twice
                  (fun r => (id r =? id job)
                            && (attempts_remaining r =? attempts_remaining job))
                  (set_failed reason) t) as [H1 H2];
        [reflexivity | reflexivity |].
      rewrite H1, H2; reflexivity.
    + destruct (update_twice (fun r => id r =? id job) (set_pending now) t)
        as [H1 H2]; [reflexivity | reflexivity |].
      rewrite H1, H2; reflexivity.
Qed.

(** ** The worker loop *)

Lemma worker_run_app (w : world) (es1 es2 : list event) :
  worker_run w (es1 ++ es2) =
  worker_run w es1 && worker_run (run w es1) es2.
Proof.
  revert w; induction es1 as [|e es1 IH]; intros w; [reflexivity|].
  cbn [app worker_run]; rewrite IH, run_cons, andb_assoc; reflexivity.
Qed.

Lemma run_app (w : world) (es1 es2 : list event) :
  run w (es1 ++ es2) = run (run w es1) es2.
Proof. unfold run; apply fold_left_app. Qed.

Lemma enqueue_events_enqueue (ps : pass) (newJobs : list JobParams) (k : nat) :
  Forall (fun e => is_enqueue e = true) (enqueue_events ps k newJobs).
Proof.
  revert k; induction newJobs as [|p rest IH]; intros k; cbn [enqueue_events].
  - constructor.
  - destruct (enqueue_fault ps k || negb (storable p)); cbn [app]; [apply IH|].
    constructor; [reflexivity | apply IH].
Qed.

Lemma followup_events_enqueue (ps : pass) (res : work_result) :
  Forall (fun e => is_enqueue e = true) (followup_events ps res).
Proof.
  destruct res as [[newJobs|]|reason]; cbn [followup_events];
    [apply enqueue_events_enqueue | constructor | constructor].
Qed.

(** Inserts touch no lease and no row that is there. *)
Lemma run_enqueues (es : list event) (w : world) :
  Forall (fun e => is_enqueue e = true) es ->
  granted (run w es) = granted w /\
  worker_run w es = true /\
  (forall k r, find_job k (db w) = Some r ->
               find_job k (db (run w es)) = Some r).
Proof.
  revert w; induction es as [|e es IH]; intros w Hall.
  - cbn; auto.
  - inversion Hall as [|? ? He Hes]; subst.
    destruct e as [now|job|now job reason|now p]; try discriminate.
    destruct (IH (step w (Enqueue now p)) Hes) as [Hg [Hr Hf]].
    rewrite run_cons; cbn [worker_run worker_event andb].
    split; [rewrite Hg; reflexivity|].
    split; [exact Hr|].
    intros k r Hk; apply Hf; cbn [step db]; unfold enqueueJob; cbn [snd].
    rewrite find_job_snoc, Hk; reflexivity.
Qed.

Lemma held_granted (w w' : world) (j : Job) :
  granted w' = granted w -> held w' j = held w j.
Proof. unfold held; intros ->; reflexivity. Qed.

Lemma insert_by_rank_perm (x : Z * event) (l : list (Z * event)) :
  Permutation (insert_by_rank x l) (x :: l).
Proof.
  induction l as [|y l IH]; cbn [insert_by_rank]; [reflexivity|].
  destruct (fst x <=? fst y); [reflexivity|].
  rewrite IH; apply perm_swap.
Qed.

Lemma by_rank_perm (l : list (Z * event)) : Permutation (by_rank l) l.
Proof.
  induction l as [|x l IH]; cbn [by_rank fold_right]; [reflexivity|].
  rewrite insert_by_rank_perm; constructor; exact IH.
Qed.

Lemma snd_combine (A B : Type) (l1 : list A) (l2 : list B) :
  List.length l1 = List.length l2 -> map snd (combine l1 l2) = l2.
Proof.
  revert l2; induction l1 as [|a l1 IH]; intros [|b l2] H;
    try discriminate; [reflexivity|].
  cbn [combine map snd]; f_equal; apply IH.
  cbn [List.length] in H; congruence.
Qed.

(** The store runs every statement issued, each once. *)
Lemma in_store_order_perm (ps : pass) (es : list event) :
  Permutation (in_store_order ps es) es.
Proof.
  unfold in_store_order.
  rewrite (Permutation_map snd (by_rank_perm _)).
  rewrite snd_combine; [reflexivity|].
  rewrite length_map, length_seq; reflexivity.
Qed.

Lemma run_after_claim (es : list event) (w : world) (job : Job) :
  held w job = true ->
  Forall (after_claim job) es ->
  worker_run w es = true /\ granted (run w es) = granted w.
Proof.
  revert w; induction es as [|e es IH]; intros w Hheld Hall; [cbn; auto|].
  inversion Hall as [|? ? He Hes]; subst.
  assert (Hg : granted (step w e) = granted w).
  { destruct He as [He|[->|[now [reason ->]]]]; [|reflexivity|reflexivity].
    destruct e; try discriminate; reflexivity. }
  assert (Hev : worker_event w e = true).
  { destruct He as [He|[->|[now [reason ->]]]]; [|exact Hheld|exact Hheld].
    destruct e; try discriminate; reflexivity. }
  destruct (IH (step w e)) as [Hr Hg']; [|exact Hes|].
  - rewrite (held_granted w (step w e) job Hg); exact Hheld.
  - rewrite run_cons; cbn [worker_run]; rewrite Hev, Hr, Hg', Hg.
    split; reflexivity.
Qed.

Lemma issued_after_claim (ps : pass) (job : Job) (res : work_result) :
  Forall (after_claim job)
         (followup_events ps res ++ finalise_events ps job res).
Proof.
  apply Forall_app; split.
  - eapply Forall_impl; [|apply followup_events_enqueue].
    intros e He; left; exact He.
  - unfold finalise_events; destruct (finalise_fault ps); [constructor|].
    destruct res as [nj|reason]; (constructor; [|constructor]).
    + right; left; reflexivity.
    + right; right; eauto.
Qed.

(** Every pass of the loop is a run in which a worker finalises only the
    row it was handed by its own claim, whatever the store times, the work
    function and the rejected statements. *)
Theorem pass_is_worker_run (ps : pass) (w : world) :
  worker_run w (pass_events ps w) = true /\
  (forall job, In (Complete job) (pass_events ps w) ->
               fst (getNextJob (claim_now ps) (db w)) = Some job) /\
  (forall now job reason, In (Fail now job reason) (pass_events ps w) ->
               fst (getNextJob (claim_now ps) (db w)) = Some job /\
               work ps (description job) = Threw reason).
Proof.
  unfold pass_events.
  destruct (claim_fault ps) as [e|]; [cbn; repeat split; intros; contradiction|].
  destruct (step_claim w (claim_now ps)) as [Hdb Hgr].
  destruct (fst (getNextJob (claim_now ps) (db w))) as [job|] eqn:Hj.
  - set (res := work ps (description job)).
    pose proof (followup_events_enqueue ps res) as Henq.
    pose proof (in_store_order_perm ps
                  (followup_events ps res ++ finalise_events ps job res))
      as Hperm.
    split; [|split].
    + cbn [worker_run worker_event andb].
      apply (run_after_claim _ (step w (Claim (claim_now ps))) job).
      * unfold held; rewrite Hgr.
        destruct (in_dec Job_eq_dec job (job :: granted w)) as [_|Hn];
          [reflexivity | exfalso; apply Hn; left; reflexivity].
      * apply (Permutation_Forall (Permutation_sym Hperm)).
        apply issued_after_claim.
    + intros job' [H|H]; [discriminate|].
      apply (Permutation_in _ Hperm) in H.
      apply in_app_iff in H; destruct H as [H|H].
      * rewrite Forall_forall in Henq; specialize (Henq _ H); discriminate.
      * unfold finalise_events in H; destruct (finalise_fault ps); [destruct H|].
        destruct res; destruct H as [H|[]]; congruence.
    + intros now job' reason [H|H]; [discriminate|].
      apply (Permutation_in _ Hperm) in H.
      apply in_app_iff in H; destruct H as [H|H].
      * rewrite Forall_forall in Henq; specialize (Henq _ H); discriminate.
      * unfold finalise_events in H; destruct (finalise_fault ps); [destruct H|].
        destruct res eqn:Eres; destruct H as [H|[]]; [discriminate|].
        inversion H; subst; auto.
  - cbn; repeat split; intros; intuition discriminate.
Qed.

(** A pass whose claim the store rejects, or that finds no eligible job,
    changes nothing: no row and no lease. *)
Theorem idle_pass_changes_nothing (n : nat) (w : world) (ps : pass) :
  claim_fault ps <> None \/
  (forall r, In r (db w) -> eligible (claim_now ps) r = false) ->
  snd (worker_pass (n, w) ps) = w.
Proof.
  intros H; unfold worker_pass, pass_events; cbn [snd].
  destruct (claim_fault ps) as [e|]; [reflexivity|].
  destruct H as [H|H]; [congruence|].
  assert (Hnone : getNextJob (claim_now ps) (db w) = (None, db w)).
  { unfold getNextJob, select_next_id.
    rewrite (filter_nothing _ _ H); reflexivity. }
  rewrite Hnone; cbn [fst run fold_left step]; rewrite Hnone.
  destruct w; reflexivity.
Qed.

Lemma idle_pass_changes_nothing_witness :
  (forall r, In r (db (mkWorld [mkJob 1 COMPLETE "a" 3 2 60 (Some 60) None] [])) ->
             eligible 500 r = false) /\
  snd (worker_pass (0%nat, mkWorld [mkJob 1 COMPLETE "a" 3 2 60 (Some 60) None] [])
                   (mkPass None 500 (fun _ => Returned None)
                           (fun _ => 0) (fun _ => false) 0 false Z.of_nat)) =
    mkWorld [mkJob 1 COMPLETE "a" 3 2 60 (Some 60) None] [].
Proof.
  assert (H : forall r,
             In r (db (mkWorld [mkJob 1 COMPLETE "a" 3 2 60 (Some 60) None] [])) ->
             eligible 500 r = false)
    by (intros r [<-|[]]; reflexivity).
  split; [exact H|].
  exact (idle_pass_changes_nothing 0
           (mkWorld [mkJob 1 COMPLETE "a" 3 2 60 (Some 60) None] [])
           (mkPass None 500 (fun _ => Returned None)
                   (fun _ => 0) (fun _ => false) 0 false Z.of_nat)
           (or_intror H)).
Defined.

Lemma failJob_retry_path (now : Z) (t : Table) (job r : Job)
      (reason : string) :
  wf t -> find_job (id job) t = Some r ->
  0 < attempts_remaining job ->
  fst (failJob now t job reason) = true /\
  find_job (id job) (snd (failJob now t job reason)) =
    Some (set_pending now r).
Proof.
  intros Hwf Hf Hpos.
  assert (Hk : (id r =? id job) = true)
    by (apply Z.eqb_eq; apply (find_job_some _ _ _ Hf)).
  assert (Hl : (attempts_remaining job <=? 0) = false)
    by (apply Z.leb_gt; exact Hpos).
  unfold failJob, failJob_stmt; rewrite Hl; cbv zeta; cbn [fst snd].
  rewrite changes_by_id by exact Hwf.
  rewrite find_update by apply set_pending_id.
  rewrite Hf; cbn [option_map]; rewrite Hk; auto.
Qed.

Lemma failJob_other (now : Z) (t : Table) (job : Job) (reason : string)
      (k : Z) :
  k <> id job ->
  find_job k (snd (failJob now t job reason)) = find_job k t.
Proof.
  intros Hk; unfold failJob, failJob_stmt; cbv zeta.
  destruct (attempts_remaining job <=? 0); cbn [snd].
  - apply find_update_other; [apply set_failed_id | exact Hk].
  - apply find_update_other_id; [apply set_pending_id | exact Hk].
Qed.

Lemma completeJob_other (t : Table) (job : Job) (k : Z) :
  k <> id job ->
  find_job k (snd (completeJob t job)) = find_job k t.
Proof.
  intros Hk; unfold completeJob, completeJob_stmt; cbv zeta; cbn [snd].
  apply find_update_other; [apply set_complete_id | exact Hk].
Qed.

Lemma finalise_step (ps : pass) (w : world) (job : Job) :
  wf (db w) ->
  find_job (id job) (db w) = Some job ->
  let w' := step w (finalising ps job) in
  wf (db w') /\
  find_job (id job) (db w') = Some (finalised ps job) /\
  (forall k, k <> id job -> find_job k (db w') = find_job k (db w)) /\
  granted w' = granted w.
Proof.
  intros Hwf Hf; unfold finalising, finalised.
  destruct (work ps (description job)) as [nj|reason];
    cbn [step db granted].
  - split; [apply completeJob_wf; exact Hwf|].
    split; [apply (completeJob_current (db w) job job Hwf Hf eq_refl)|].
    split; [intros k Hk; apply completeJob_other; exact Hk | reflexivity].
  - split; [apply failJob_wf; exact Hwf|].
    split; [|split; [intros k Hk; apply failJob_other; exact Hk
                    | reflexivity]].
    destruct (attempts_remaining job <=? 0) eqn:Eb.
    + apply Z.leb_le in Eb.
      apply (failJob_terminal_path_current _ (db w) job job reason
               Hwf Hf Eb eq_refl).
    + apply Z.leb_gt in Eb.
      apply (failJob_retry_path _ (db w) job job reason Hwf Hf Eb).
Qed.

(** A pass that claims a job and whose finalising statement is accepted
    runs the claim, then inserts, the finalising statement, and the other
    inserts: between them every insert issued, each once. *)
Lemma pass_split (ps : pass) (w : world) (job : Job) :
  claim_fault ps = None ->
  finalise_fault ps = false ->
  fst (getNextJob (claim_now ps) (db w)) = Some job ->
  exists es1 es2,
    pass_events ps w =
      Claim (claim_now ps) :: es1 ++ finalising ps job :: es2 /\
    Forall (fun e => is_enqueue e = true) es1 /\
    Forall (fun e => is_enqueue e = true) es2 /\
    Permutation (followup_events ps (work ps (description job)))
                (es1 ++ es2).
Proof.
  intros Hcf Hff Hj; unfold pass_events; rewrite Hcf, Hj; cbv zeta.
  set (res := work ps (description job)).
  assert (Hfin : finalise_events ps job res = [finalising ps job]).
  { unfold finalise_events, finalising; rewrite Hff; fold res.
    destruct res; reflexivity. }
  rewrite Hfin.
  pose proof (in_store_order_perm ps
                (followup_events ps res ++ [finalising ps job])) as Hperm.
  set (es := in_store_order ps
               (followup_events ps res ++ [finalising ps job])) in *.
  assert (Hin : In (finalising ps job) es).
  { apply (Permutation_in _ (Permutation_sym Hperm)).
    apply in_or_app; right; left; reflexivity. }
  destruct (in_split _ _ Hin) as [es1 [es2 Hes]].
  exists es1, es2; rewrite Hes.
  assert (Hp : Permutation (followup_events ps res) (es1 ++ es2)).
  { apply (Permutation_cons_app_inv es1 es2 (a := finalising ps job)).
    rewrite <- Hes.
    apply Permutation_sym.
    eapply Permutation_trans; [exact Hperm|].
    apply Permutation_sym, Permutation_cons_append. }
  pose proof (Permutation_Forall Hp (followup_events_enqueue ps res)) as Hall.
  apply Forall_app in Hall; destruct Hall as [H1 H2].
  repeat split; auto.
Qed.

Lemma pass_result (n : nat) (w : world) (ps : pass) (job : Job) :
  wf (db w) ->
  claim_fault ps = None ->
  finalise_fault ps = false ->
  fst (getNextJob (claim_now ps) (db w)) = Some job ->
  let w' := snd (worker_pass (n, w) ps) in
  fst (worker_pass (n, w) ps) = 0%nat /\
  wf (db w') /\
  find_job (id job) (db w') = Some (finalised ps job) /\
  (forall k r0, k <> id job -> find_job k (db w) = Some r0 ->
                find_job k (db w') = Some r0) /\
  (followup_events ps (work ps (description job)) = [] ->
   (forall k, k <> id job -> find_job k (db w') = find_job k (db w)) /\
   granted w' = job :: granted w).
Proof.
  intros Hwf Hcf Hff Hj w'.
  destruct (pass_split ps w job Hcf Hff Hj) as [es1 [es2 [Hev [H1 [H2 Hp]]]]].
  unfold w', worker_pass; cbn [fst snd]; rewrite Hev, Hcf; cbn [isBusyError].
  split; [reflexivity|].
  rewrite run_cons, run_app, run_cons.
  destruct (step_claim w (claim_now ps)) as [Hdb Hgr]; rewrite Hj in Hgr.
  set (w1 := step w (Claim (claim_now ps))) in *.
  assert (Hwf1 : wf (db w1)) by (apply step_wf; exact Hwf).
  destruct (getNextJob_cases (claim_now ps) (db w) Hwf)
    as [[Hnone _]|[r0 [_ [_ [_ [Hfst [Hfind [Hoth _]]]]]]]].
  { rewrite Hnone in Hj; discriminate. }
  assert (Hjob : job = lease (claim_now ps) r0) by congruence.
  assert (Hf1 : find_job (id job) (db w1) = Some job)
    by (rewrite Hdb, Hjob; exact Hfind).
  assert (Hoth1 : forall k, k <> id job -> find_job k (db w1) = find_job k (db w))
    by (intros k Hk; rewrite Hdb; apply Hoth; rewrite Hjob in Hk; exact Hk).
  destruct (run_enqueues es1 w1 H1) as [Hg2 [_ Hkeep2]].
  set (w2 := run w1 es1) in *.
  assert (Hwf2 : wf (db w2)) by (apply run_wf; exact Hwf1).
  assert (Hf2 : find_job (id job) (db w2) = Some job) by (apply Hkeep2, Hf1).
  destruct (finalise_step ps w2 job Hwf2 Hf2) as [Hwf3 [Hf3 [Hoth3 Hg3]]].
  set (w3 := step w2 (finalising ps job)) in *.
  destruct (run_enqueues es2 w3 H2) as [Hg4 [_ Hkeep4]].
  split; [apply run_wf; exact Hwf3|].
  split; [apply Hkeep4; exact Hf3|].
  split.
  - intros k r1 Hk Hr1; apply Hkeep4; rewrite (Hoth3 k Hk); apply Hkeep2.
    rewrite (Hoth1 k Hk); exact Hr1.
  - intros Hnil; rewrite Hnil in Hp.
    apply Permutation_nil in Hp.
    apply app_eq_nil in Hp; destruct Hp as [-> ->].
    cbn [run fold_left] in *; split.
    + intros k Hk; rewrite (Hoth3 k Hk); apply Hoth1; exact Hk.
    + rewrite Hg3; exact Hgr.
Qed.

(** One pass whose statements the store accepts, run without another
    worker in between.  The job it claims ends the pass COMPLETE when the
    work function returns, whatever follow-ups it returned; FAILED with the
    thrown reason as [error] when it throws and the claim took the last
    attempt; PENDING when it throws and attempts are left, its deadline
    then being what [unixepoch('now', '+N second')] gives for its
    [time_limit_seconds]: [now + time_limit_seconds] when that limit is not
    negative and the date is one the store can represent, NULL otherwise.
    Rows of other jobs are untouched and [busy_errors] is 0. *)
Theorem pass_finalises_its_job (n : nat) (w : world) (ps : pass) (job : Job) :
  wf (db w) ->
  claim_fault ps = None ->
  finalise_fault ps = false ->
  fst (getNextJob (claim_now ps) (db w)) = Some job ->
  let w' := snd (worker_pass (n, w) ps) in
  fst (worker_pass (n, w) ps) = 0%nat /\
  (forall k r0, k <> id job -> find_job k (db w) = Some r0 ->
                find_job k (db w') = Some r0) /\
  (forall newJobs, work ps (description job) = Returned newJobs ->
     find_job (id job) (db w') =
       Some (mkJob (id job) COMPLETE (description job) (max_attempts job)
                   (attempts_remaining job) (time_limit_seconds job)
                   (deadline job) (error job))) /\
  (forall reason, work ps (description job) = Threw reason ->
     attempts_remaining job <= 0 ->
     find_job (id job) (db w') =
       Some (mkJob (id job) FAILED (description job) (max_attempts job)
                   (attempts_remaining job) (time_limit_seconds job)
                   (deadline job) (Some reason))) /\
  (forall reason, work ps (description job) = Threw reason ->
     0 < attempts_remaining job ->
     find_job (id job) (db w') =
       Some (mkJob (id job) PENDING (description job) (max_attempts job)
                   (attempts_remaining job) (time_limit_seconds job)
                   (unixepoch_plus (finalise_now ps)
                                   (time_limit_seconds job))
                   (error job))) /\
  (representable (finalise_now ps) (time_limit_seconds job) ->
   unixepoch_plus (finalise_now ps) (time_limit_seconds job) =
     Some (finalise_now ps + time_limit_seconds job)) /\
  (~ representable (finalise_now ps) (time_limit_seconds job) ->
   unixepoch_plus (finalise_now ps) (time_limit_seconds job) = None).
Proof.
  intros Hwf Hcf Hff Hj w'.
  destruct (pass_result n w ps job Hwf Hcf Hff Hj)
    as [Hn [_ [Hf [Hoth _]]]]; fold w' in Hf, Hoth.
  split; [exact Hn|].
  split; [exact Hoth|].
  unfold finalised in Hf.
  split; [|split; [|split; [|apply unixepoch_plus_cases]]].
  - intros nj Hres; rewrite Hres in Hf; exact Hf.
  - intros reason Hres Hle; rewrite Hres in Hf.
    assert (Hb : (attempts_remaining job <=? 0) = true)
      by (apply Z.leb_le; exact Hle).
    rewrite Hb in Hf; exact Hf.
  - intros reason Hres Hpos; rewrite Hres in Hf.
    assert (Hb : (attempts_remaining job <=? 0) = false)
      by (apply Z.leb_gt; exact Hpos).
    rewrite Hb in Hf; exact Hf.
Qed.

Lemma pass_finalises_its_job_witness :
  wf (db (mkWorld [mkJob 1 PENDING "a" 1 1 60 (Some 60) None] [])) /\
  find_job 1 (db (snd (worker_pass
                         (0%nat, mkWorld [mkJob 1 PENDING "a" 1 1 60 (Some 60) None] [])
                         (mkPass None 10 (fun _ => Threw "boom")
                                 (fun _ => 0) (fun _ => false) 20 false Z.of_nat)))) =
    Some (mkJob 1 FAILED "a" 1 0 60 (Some 70) (Some "boom"%string)).
Proof.
  assert (Hwf : wf (db (mkWorld [mkJob 1 PENDING "a" 1 1 60 (Some 60) None] [])))
    by (unfold wf; simpl; constructor; [simpl; tauto | constructor]).
  split; [exact Hwf|].
  apply (proj1 (proj2 (proj2 (proj2
           (pass_finalises_its_job 0
              (mkWorld [mkJob 1 PENDING "a" 1 1 60 (Some 60) None] [])
              (mkPass None 10 (fun _ => Threw "boom")
                      (fun _ => 0) (fun _ => false) 20 false Z.of_nat)
              (mkJob 1 IN_PROGRESS "a" 1 0 60 (Some 70) None)
              Hwf eq_refl eq_refl eq_refl)))) "boom"%string eq_refl).
  simpl; lia.
Defined.

Lemma sole_eligible_claim (now : Z) (t : Table) (r : Job) :
  wf t ->
  find_job (id r) t = Some r ->
  eligible now r = true ->
  (forall x, In x t -> id x <> id r -> eligible now x = false) ->
  fst (getNextJob now t) = Some (lease now r).
Proof.
  intros Hwf Hf Hel Hoth.
  destruct (find_job_some _ _ _ Hf) as [Hin _].
  destruct (getNextJob_cases now t Hwf)
    as [[_ Hall]|[r0 [Hin0 [Hel0 [_ [Hfst _]]]]]].
  - rewrite (Hall r Hin) in Hel; discriminate.
  - destruct (Z.eq_dec (id r0) (id r)) as [E|E].
    + pose proof (find_job_in t r0 Hwf Hin0) as H.
      rewrite E, Hf in H; inversion H; subst r0; exact Hfst.
    + rewrite (Hoth r0 Hin0 E) in Hel0; discriminate.
Qed.

Lemma failing_passes (passes : list pass) :
  forall (n : nat) (w : world) (r : Job),
    wf (db w) ->
    find_job (id r) (db w) = Some r ->
    status r = PENDING ->
    passes <> [] ->
    Z.of_nat (List.length passes) <= attempts_remaining r ->
    (forall x, In x (db w) -> id x <> id r ->
               forall now, eligible now x = false) ->
    Forall (fun ps => claim_fault ps = None /\ finalise_fault ps = false /\
                      exists reason, work ps (description r) = Threw reason)
           passes ->
    let w' := snd (fold_left worker_pass passes (n, w)) in
    exists r',
      find_job (id r) (db w') = Some r' /\ same_job r r' /\
      attempts_remaining r' =
        attempts_remaining r - Z.of_nat (List.length passes) /\
      leases_granted (id r) w' =
        leases_granted (id r) w + Z.of_nat (List.length passes) /\
      (0 < attempts_remaining r' -> status r' = PENDING) /\
      (attempts_remaining r' = 0 ->
       status r' = FAILED /\
       exists ps reason,
         last passes ps = ps /\ In ps passes /\
         work ps (description r) = Threw reason /\
         error r' = Some reason).
Proof.
  induction passes as [|ps rest IH];
    intros n w r Hwf Hf Hst Hne Hlen Hoth Hall; [congruence|].
  inversion Hall as [|? ? [Hcf [Hff [reason Hwork]]] Hrest]; subst.
  assert (Hpos : 0 < attempts_remaining r)
    by (cbn [List.length] in Hlen; lia).
  assert (Hel : eligible (claim_now ps) r = true)
    by (apply eligible_spec; left; auto).
  pose proof (sole_eligible_claim (claim_now ps) (db w) r Hwf Hf Hel
                (fun x Hx Hid => Hoth x Hx Hid (claim_now ps))) as Hj.
  set (job := lease (claim_now ps) r) in *.
  destruct (pass_result n w ps job Hwf Hcf Hff Hj)
    as [_ [Hwf1 [Hf1 [_ Hsame]]]].
  assert (Hres : work ps (description job) = Threw reason) by exact Hwork.
  destruct Hsame as [Hoth1 Hgr1]; [rewrite Hres; reflexivity|].
  cbn [fold_left].
  set (s1 := worker_pass (n, w) ps) in *.
  assert (Hs1 : s1 = (fst s1, snd s1)) by (destruct s1; reflexivity).
  set (r1 := finalised ps job) in *.
  assert (Hr1 : r1 = if attempts_remaining r - 1 <=? 0
                     then set_failed reason job
                     else set_pending (finalise_now ps) job).
  { unfold r1, finalised; rewrite Hres; reflexivity. }
  assert (Hlg1 : leases_granted (id r) (snd s1) = leases_granted (id r) w + 1).
  { unfold leases_granted; rewrite Hgr1; cbn [filter lease id job].
    rewrite Z.eqb_refl; cbn [List.length]; lia. }
  destruct rest as [|ps2 rest].
  - cbn [fold_left List.length last] in *.
    exists r1; split; [exact Hf1|].
    rewrite Hr1.
    destruct (attempts_remaining r - 1 <=? 0) eqn:Eb;
      [apply Z.leb_le in Eb | apply Z.leb_gt in Eb];
      (split; [unfold same_job; cbn; auto|]);
      (split; [cbn; lia|]); (split; [exact Hlg1|]);
      (split; [cbn; intros; try reflexivity; lia|]); cbn; intros H0.
    + split; [reflexivity|].
      exists ps, reason; repeat split; auto.
    + lia.
  - rewrite Hs1.
    assert (Hbig : 0 < attempts_remaining r - 1)
      by (cbn [List.length] in Hlen; lia).
    assert (Hb : (attempts_remaining r - 1 <=? 0) = false)
      by (apply Z.leb_gt; exact Hbig).
    rewrite Hb in Hr1.
    assert (Hid1 : id r1 = id r) by (rewrite Hr1; reflexivity).
    assert (Hf1' : find_job (id r1) (db (snd s1)) = Some r1)
      by (rewrite Hid1; exact Hf1).
    assert (Hoth' : forall x, In x (db (snd s1)) -> id x <> id r1 ->
                              forall now, eligible now x = false).
    { intros x Hx Hid now; rewrite Hid1 in Hid.
      pose proof (find_job_in _ x Hwf1 Hx) as H.
      rewrite (Hoth1 (id x) Hid) in H.
      apply find_job_some in H; destruct H as [H _].
      apply Hoth; auto. }
    destruct (IH (fst s1) (snd s1) r1 Hwf1 Hf1'
                 ltac:(rewrite Hr1; reflexivity) ltac:(discriminate)
                 ltac:(rewrite Hr1; cbn [List.length] in *; cbn; lia)
                 Hoth'
                 ltac:(rewrite Hr1; exact Hrest))
      as [r' [Hf' [Hs' [Har [Hlg [Hp Hz]]]]]].
    rewrite Hid1 in Hf', Hlg.
    exists r'; split; [exact Hf'|].
    split.
    { apply (same_job_trans r r1 r'); [|exact Hs'].
      rewrite Hr1; unfold same_job; cbn; auto. }
    split; [rewrite Har, Hr1; cbn [List.length]; cbn; lia|].
    split; [rewrite Hlg, Hlg1; cbn [List.length]; lia|].
    split; [exact Hp|].
    intros H0; destruct (Hz H0) as [Hfail [ps' [reason' [Hl [Hin [Hw He]]]]]].
    split; [exact Hfail|].
    exists ps', reason'; repeat split.
    + exact Hl.
    + right; exact Hin.
    + rewrite Hr1 in Hw; exact Hw.
    + exact He.
Qed.

(** Bounded retry.  A PENDING job with [k >= 1] attempts left, the only
    job that can be claimed, is worked on by one loop whose work function
    throws each time, every statement being accepted.  After [k] passes the
    job has been leased [k] times, has no attempt left and is FAILED, its
    [error] being the reason thrown in the last pass; after fewer passes
    it is PENDING again with one attempt less per pass. *)
Theorem failing_job_is_retried_then_failed
        (passes : list pass) (w : world) (r : Job) :
  wf (db w) ->
  find_job (id r) (db w) = Some r ->
  status r = PENDING ->
  passes <> [] ->
  Z.of_nat (List.length passes) <= attempts_remaining r ->
  (forall x, In x (db w) -> id x <> id r ->
             forall now, eligible now x = false) ->
  Forall (fun ps => claim_fault ps = None /\ finalise_fault ps = false /\
                    exists reason, work ps (description r) = Threw reason)
         passes ->
  let w' := snd (startWorker w passes) in
  exists r',
    find_job (id r) (db w') = Some r' /\
    attempts_remaining r' =
      attempts_remaining r - Z.of_nat (List.length passes) /\
    leases_granted (id r) w' =
      leases_granted (id r) w + Z.of_nat (List.length passes) /\
    (Z.of_nat (List.length passes) < attempts_remaining r ->
     status r' = PENDING) /\
    (Z.of_nat (List.length passes) = attempts_remaining r ->
     status r' = FAILED /\
     exists ps reason,
       last passes ps = ps /\ In ps passes /\
       work ps (description r) = Threw reason /\
       error r' = Some reason).
Proof.
  intros Hwf Hf Hst Hne Hlen Hoth Hall w'.
  destruct (failing_passes passes 0 w r Hwf Hf Hst Hne Hlen Hoth Hall)
    as [r' [Hf' [_ [Har [Hlg [Hp Hz]]]]]].
  exists r'; split; [exact Hf'|].
  split; [exact Har|].
  split; [exact Hlg|].
  split; [intros H; apply Hp; lia | intros H; apply Hz; lia].
Qed.

Lemma failing_job_is_retried_then_failed_witness :
  wf (db (mkWorld [mkJob 1 PENDING "a" 2 2 60 (Some 60) None] [])) /\
  exists r',
    find_job 1 (db (snd (startWorker
                           (mkWorld [mkJob 1 PENDING "a" 2 2 60 (Some 60) None] [])
                           [mkPass None 10 (fun _ => Threw "e1")
                                   (fun _ => 0) (fun _ => false) 20 false Z.of_nat;
                            mkPass None 30 (fun _ => Threw "e2")
                                   (fun _ => 0) (fun _ => false) 40 false Z.of_nat])))
      = Some r' /\
    attempts_remaining r' = 2 - 2.
Proof.
  assert (Hwf : wf (db (mkWorld [mkJob 1 PENDING "a" 2 2 60 (Some 60) None] [])))
    by (unfold wf; simpl; constructor; [simpl; tauto | constructor]).
  split; [exact Hwf|].
  destruct (failing_job_is_retried_then_failed
              [mkPass None 10 (fun _ => Threw "e1")
                      (fun _ => 0) (fun _ => false) 20 false Z.of_nat;
               mkPass None 30 (fun _ => Threw "e2")
                      (fun _ => 0) (fun _ => false) 40 false Z.of_nat]
              (mkWorld [mkJob 1 PENDING "a" 2 2 60 (Some 60) None] [])
              (mkJob 1 PENDING "a" 2 2 60 (Some 60) None)
              Hwf eq_refl eq_refl)
    as [r' [Hf [Har _]]].
  - discriminate.
  - simpl; lia.
  - intros x [<-|[]] Hid; exfalso; apply Hid; reflexivity.
  - repeat constructor; eexists; reflexivity.
  - exists r'; split; [exact Hf | exact Har].
Defined.

(** ** Attempts spent without a final state *)





(** ** Follow-up jobs *)

Lemma step_enqueue_rows (w : world) (now : Z) (p : JobParams) (x : Job) :
  In x (db w) -> In x (db (step w (Enqueue now p))).
Proof.
  intros H; cbn [step db]; unfold enqueueJob; cbn [snd].
  apply in_or_app; left; exact H.
Qed.

Lemma run_enqueue_rows (es : list event) (w : world) (x : Job) :
  Forall (fun e => is_enqueue e = true) es ->
  In x (db w) -> In x (db (run w es)).
Proof.
  revert w; induction es as [|e es IH]; intros w Hall Hx; [exact Hx|].
  inversion Hall as [|? ? He Hes]; subst.
  destruct e as [now|job|now job reason|now p]; try discriminate.
  rewrite run_cons; apply IH; [exact Hes | apply step_enqueue_rows, Hx].
Qed.

Lemma enqueue_events_params (ps : pass) (newJobs : list JobParams) :
  (forall k, enqueue_fault ps k = false) ->
  Forall (fun p => storable p = true) newJobs ->
  forall k, enqueued (enqueue_events ps k newJobs) = newJobs.
Proof.
  intros Hnf Hall; induction Hall as [|p rest Hp _ IH]; intros k;
    cbn [enqueue_events]; [reflexivity|].
  rewrite (Hnf k), Hp; cbn [orb negb app enqueued flat_map].
  f_equal; apply IH.
Qed.

Lemma enqueued_app (es1 es2 : list event) :
  enqueued (es1 ++ es2) = enqueued es1 ++ enqueued es2.
Proof. unfold enqueued; apply flat_map_app. Qed.

Lemma enqueued_perm (es1 es2 : list event) :
  Permutation es1 es2 -> Permutation (enqueued es1) (enqueued es2).
Proof.
  intros H; induction H as [|e l l' _ IH|e1 e2 l|l l' l'' _ IH1 _ IH2].
  - constructor.
  - cbn [enqueued flat_map]; apply Permutation_app_head; exact IH.
  - cbn [enqueued flat_map]; rewrite !app_assoc.
    apply Permutation_app_tail, Permutation_app_comm.
  - eapply Permutation_trans; eassumption.
Qed.

Lemma run_enqueue_ids (es : list event) (w : world) (k : Z) :
  Forall (fun e => is_enqueue e = true) es ->
  In k (map id (db w)) -> In k (map id (db (run w es))).
Proof.
  intros Hall Hk; apply in_map_iff in Hk; destruct Hk as [x [Hid Hx]].
  apply in_map_iff; exists x; split; [exact Hid|].
  apply run_enqueue_rows; assumption.
Qed.

(** Inserts run in any order add one row each: a PENDING job under an id
    that was not in the table, with the values given. *)
Lemma enqueued_rows (es : list event) :
  Forall (fun e => is_enqueue e = true) es ->
  forall w : world,
    wf (db w) ->
    List.length (db (run w es)) =
      (List.length (db w) + List.length (enqueued es))%nat /\
    forall p, In p (enqueued es) ->
      exists row,
        In row (db (run w es)) /\
        ~ In (id row) (map id (db w)) /\
        status row = PENDING /\
        description row = p_description p /\
        max_attempts row = p_max_attempts p /\
        attempts_remaining row = p_max_attempts p /\
        time_limit_seconds row = p_time_limit_seconds p /\
        error row = None.
Proof.
  intros Hall; induction Hall as [|e rest He Hrest IH]; intros w Hwf.
  - cbn; split; [lia | intros p []].
  - destruct e as [now|job|now job reason|now p0]; try discriminate.
    rewrite run_cons; cbn [enqueued flat_map app]; fold (enqueued rest).
    set (w1 := step w (Enqueue now p0)).
    assert (Hwf1 : wf (db w1)) by (apply step_wf; exact Hwf).
    destruct (IH w1 Hwf1) as [Hlen Hrows].
    assert (Hdb1 : db w1 = snd (enqueueJob now (db w) p0)) by reflexivity.
    split.
    + rewrite Hlen, Hdb1; unfold enqueueJob; cbn [snd List.length].
      rewrite length_app; cbn [List.length]; lia.
    + intros p [<-|Hp].
      * eexists; split.
        { apply run_enqueue_rows; [exact Hrest|].
          rewrite Hdb1; unfold enqueueJob; cbn [snd].
          apply in_or_app; right; left; reflexivity. }
        cbn; repeat split; auto; apply next_id_fresh.
      * destruct (Hrows p Hp) as [row [Hin [Hfresh Hrest']]].
        exists row; split; [exact Hin|].
        split; [|exact Hrest'].
        intros Hold; apply Hfresh; rewrite Hdb1; unfold enqueueJob; cbn [snd].
        rewrite map_app; apply in_or_app; left; exact Hold.
Qed.

(** Fan-out, for one pass run without another worker in between.  A pass
    claims a job, the work function returns an array of follow-up jobs
    whose numbers the table can store, and the store accepts every
    statement, running the inserts and the finalising statement in any
    order.  The pass adds exactly one row per follow-up: for each of them a
    PENDING job whose id was not in the table, with the description,
    [time_limit_seconds] and [max_attempts] given and
    [attempts_remaining = max_attempts]; the job that was claimed is
    COMPLETE. *)
Theorem pass_enqueues_followups
        (n : nat) (w : world) (ps : pass) (job : Job)
        (newJobs : list JobParams) :
  wf (db w) ->
  claim_fault ps = None ->
  finalise_fault ps = false ->
  (forall k, enqueue_fault ps k = false) ->
  Forall (fun p => storable p = true) newJobs ->
  fst (getNextJob (claim_now ps) (db w)) = Some job ->
  work ps (description job) = Returned (Some newJobs) ->
  let w' := snd (worker_pass (n, w) ps) in
  List.length (getJobs (db w')) =
    (List.length (getJobs (db w)) + List.length newJobs)%nat /\
  (exists done, find_job (id job) (db w') = Some done /\
                status done = COMPLETE) /\
  forall p, In p newJobs ->
    exists row,
      In row (getJobs (db w')) /\
      ~ In (id row) (map id (db w)) /\
      status row = PENDING /\
      description row = p_description p /\
      max_attempts row = p_max_attempts p /\
      attempts_remaining row = p_max_attempts p /\
      time_limit_seconds row = p_time_limit_seconds p /\
      error row = None.
Proof.
  intros Hwf Hcf Hff Hnf Hst Hj Hres w'.
  destruct (pass_result n w ps job Hwf Hcf Hff Hj)
    as [_ [Hwf' [Hf _]]]; fold w' in Hwf', Hf.
  destruct (pass_split ps w job Hcf Hff Hj) as [es1 [es2 [Hev [H1 [H2 Hp]]]]].
  rewrite Hres in Hp; cbn [followup_events] in Hp.
  apply enqueued_perm in Hp.
  rewrite (enqueue_events_params ps newJobs Hnf Hst), enqueued_app in Hp.
  assert (Hfin : finalising ps job = Complete job)
    by (unfold finalising; rewrite Hres; reflexivity).
  assert (Hw' : w' = run (step (run (step w (Claim (claim_now ps))) es1)
                               (Complete job)) es2).
  { unfold w', worker_pass; cbn [fst snd]; rewrite Hev, Hfin.
    rewrite run_cons, run_app, run_cons; reflexivity. }
  set (w1 := step w (Claim (claim_now ps))) in *.
  assert (Hwf1 : wf (db w1)) by (apply step_wf; exact Hwf).
  assert (Hids1 : map id (db w1) = map id (db w)).
  { pose proof (step_ids_eq w (Claim (claim_now ps)) Hwf) as H.
    cbn [is_enqueue] in H; rewrite app_nil_r in H; exact H. }
  destruct (enqueued_rows es1 H1 w1 Hwf1) as [Hlen2 Hrows2].
  set (w2 := run w1 es1) in *.
  assert (Hwf2 : wf (db w2)) by (apply run_wf; exact Hwf1).
  set (w3 := step w2 (Complete job)) in *.
  assert (Hwf3 : wf (db w3)) by (apply step_wf; exact Hwf2).
  assert (Hids3 : map id (db w3) = map id (db w2)).
  { pose proof (step_ids_eq w2 (Complete job) Hwf2) as H.
    cbn [is_enqueue] in H; rewrite app_nil_r in H; exact H. }
  destruct (enqueued_rows es2 H2 w3 Hwf3) as [Hlen4 Hrows4].
  rewrite <- Hw' in Hlen4, Hrows4.
  assert (Hjin : In (id job) (map id (db w1))).
  { destruct (step_claim w (claim_now ps)) as [Hdb _]; fold w1 in Hdb.
    destruct (getNextJob_cases (claim_now ps) (db w) Hwf)
      as [[Hnone _]|[r0 [Hin0 [_ [_ [Hfst _]]]]]].
    - rewrite Hnone in Hj; discriminate.
    - rewrite Hids1.
      assert (job = lease (claim_now ps) r0) by congruence; subst job.
      cbn [lease id]; apply in_map; exact Hin0. }
  unfold getJobs.
  split.
  { rewrite Hlen4.
    rewrite <- (length_map id (db w3)), Hids3, length_map, Hlen2.
    rewrite <- (length_map id (db w1)), Hids1, length_map.
    rewrite (Permutation_length Hp), length_app; lia. }
  split.
  { exists (finalised ps job); split; [exact Hf|].
    unfold finalised; rewrite Hres; reflexivity. }
  intros p Hin; apply (Permutation_in _ Hp) in Hin.
  apply in_app_or in Hin; destruct Hin as [Hin|Hin].
  - destruct (Hrows2 p Hin) as [row [Hrow [Hfresh Hrest]]].
    exists row; split; [|split; [rewrite <- Hids1; exact Hfresh | exact Hrest]].
    assert (Hne : id row <> id job)
      by (intros E; apply Hfresh; rewrite E; exact Hjin).
    pose proof (find_job_in _ row Hwf2 Hrow) as Hfr.
    rewrite <- (completeJob_other (db w2) job (id row) Hne) in Hfr.
    destruct (run_enqueues es2 w3 H2) as [_ [_ Hkeep]].
    apply Hkeep in Hfr; rewrite <- Hw' in Hfr.
    apply find_job_some in Hfr; tauto.
  - destruct (Hrows4 p Hin) as [row [Hrow [Hfresh Hrest]]].
    exists row; split; [exact Hrow|]; split; [|exact Hrest].
    intros Hold; apply Hfresh; rewrite Hids3.
    apply run_enqueue_ids; [exact H1|]; rewrite Hids1; exact Hold.
Qed.

Lemma pass_enqueues_followups_witness :
  wf (db (mkWorld [mkJob 1 PENDING "a" 1 1 60 (Some 60) None] [])) /\
  List.length
    (getJobs (db (snd (worker_pass
       (0%nat, mkWorld [mkJob 1 PENDING "a" 1 1 60 (Some 60) None] [])
       (mkPass None 10
               (fun _ => Returned (Some [mkParams "b" 5 2; mkParams "c" 6 3]))
               (fun _ => 12) (fun _ => false) 20 false
               (fun k => - Z.of_nat k)))))) =
  (1 + 2)%nat.
Proof.
  assert (Hwf : wf (db (mkWorld [mkJob 1 PENDING "a" 1 1 60 (Some 60) None] [])))
    by (unfold wf; simpl; constructor; [simpl; tauto | constructor]).
  split; [exact Hwf|].
  assert (Hst : Forall (fun p => storable p = true)
                       [mkParams "b" 5 2; mkParams "c" 6 3])
    by (repeat constructor).
  exact (proj1 (pass_enqueues_followups 0
           (mkWorld [mkJob 1 PENDING "a" 1 1 60 (Some 60) None] [])
           (mkPass None 10
               (fun _ => Returned (Some [mkParams "b" 5 2; mkParams "c" 6 3]))
               (fun _ => 12) (fun _ => false) 20 false
               (fun k => - Z.of_nat k))
           (mkJob 1 IN_PROGRESS "a" 1 0 60 (Some 70) None)
           [mkParams "b" 5 2; mkParams "c" 6 3]
           Hwf eq_refl eq_refl (fun _ => eq_refl)
           Hst
           eq_refl eq_refl)).
Defined.

(** ** Backoff *)

Lemma startWorker_snoc (w : world) (passes : list pass) (ps : pass) :
  startWorker w (passes ++ [ps]) = worker_pass (startWorker w passes) ps.
Proof. unfold startWorker; rewrite fold_left_app; reflexivity. Qed.

(** [busy_errors] counts the busy rejections in a row: after any number of
    passes it is the number of latest passes whose claim the store
    rejected with [errno] 5, back to the last pass that was not so
    rejected; any other outcome of a claim, another error included, sets
    it to 0. *)
Theorem busy_errors_counts_consecutive (w : world) (passes : list pass) :
  fst (startWorker w passes) = leading_busy (rev passes).
Proof.
  induction passes as [|ps passes IH] using rev_ind; [reflexivity|].
  rewrite startWorker_snoc, rev_app_distr; cbn [rev app leading_busy].
  unfold worker_pass; cbn [fst]; rewrite IH; reflexivity.
Qed.

(** ** The schema *)

Lemma lookup_status_app (i : Z) (a b : list (Z * option string)) :
  lookup_status i (a ++ b) =
  match lookup_status i a with
  | Some v => Some v
  | None => lookup_status i b
  end.
Proof.
  induction a as [|[k v] a IH]; cbn [app lookup_status]; [reflexivity|].
  destruct (k =? i); [reflexivity | exact IH].
Qed.

Lemma insert_keeps (rows : list (Z * option string)) (row : Z * option string)
      (i : Z) (v : option string) :
  lookup_status i rows = Some v ->
  lookup_status i (insert_or_ignore rows row) = Some v.
Proof.
  intros H; unfold insert_or_ignore.
  destruct (lookup_status (fst row) rows); [exact H|].
  rewrite lookup_status_app, H; reflexivity.
Qed.

Lemma fold_keeps (l rows : list (Z * option string)) (i : Z)
      (v : option string) :
  lookup_status i rows = Some v ->
  lookup_status i (fold_left insert_or_ignore l rows) = Some v.
Proof.
  revert rows; induction l as [|a l IH]; intros rows H; [exact H|].
  cbn [fold_left]; apply IH, insert_keeps, H.
Qed.

Lemma fold_new (l rows : list (Z * option string)) (row : Z * option string) :
  NoDup (map fst l) -> In row l ->
  lookup_status (fst row) rows = None ->
  lookup_status (fst row) (fold_left insert_or_ignore l rows) =
    Some (snd row).
Proof.
  revert rows; induction l as [|a l IH]; intros rows Hnd Hin Hnone;
    [contradiction|].
  cbn [map] in Hnd; inversion Hnd as [|? ? Hna Hnd']; subst.
  cbn [fold_left]; destruct Hin as [->|Hin].
  - apply fold_keeps; unfold insert_or_ignore; rewrite Hnone.
    rewrite lookup_status_app, Hnone; destruct row as [k v].
    cbn [lookup_status fst snd]; rewrite Z.eqb_refl; reflexivity.
  - apply IH; [exact Hnd' | exact Hin|].
    assert (Hne : fst a <> fst row)
      by (intros E; apply Hna; rewrite E; apply in_map; exact Hin).
    unfold insert_or_ignore.
    destruct (lookup_status (fst a) rows); [exact Hnone|].
    rewrite lookup_status_app, Hnone; destruct a as [k v].
    cbn [lookup_status fst] in *.
    assert (Hb : (k =? fst row) = false) by (apply Z.eqb_neq; exact Hne).
    rewrite Hb; reflexivity.
Qed.

Lemma fold_noop (l rows : list (Z * option string)) :
  (forall row, In row l -> exists v, lookup_status (fst row) rows = Some v) ->
  fold_left insert_or_ignore l rows = rows.
Proof.
  induction l as [|a l IH]; intros H; [reflexivity|].
  cbn [fold_left].
  assert (Ha : insert_or_ignore rows a = rows).
  { unfold insert_or_ignore.
    destruct (H a (or_introl eq_refl)) as [v Hv]; rewrite Hv; reflexivity. }
  rewrite Ha; apply IH; intros row Hr; apply H; right; exact Hr.
Qed.

Lemma fold_has (l rows : list (Z * option string)) (row : Z * option string) :
  NoDup (map fst l) -> In row l ->
  exists v, lookup_status (fst row) (fold_left insert_or_ignore l rows)
            = Some v.
Proof.
  intros Hnd Hin.
  destruct (lookup_status (fst row) rows) as [v|] eqn:E.
  - exists v; apply fold_keeps; exact E.
  - exists (snd row); apply fold_new; assumption.
Qed.

Lemma status_rows_keys : NoDup (map fst status_rows).
Proof. cbn; repeat constructor; cbn; lia. Qed.

Lemma status_rows_complete (s : Status) :
  In (status_code s, Some (status_name s)) status_rows.
Proof. destruct s; cbn; auto. Qed.

(** Opening a database that [initialiseDB] has set up before changes
    nothing: the call is idempotent, it keeps every job of an existing
    [jobs] table, and [ON CONFLICT DO NOTHING] keeps every row an existing
    [status] table has. *)
Theorem initialiseDB_keeps_what_is_there (d : database) :
  initialiseDB (initialiseDB d) = initialiseDB d /\
  (forall t, jobs_table d = Some t -> jobs_table (initialiseDB d) = Some t) /\
  (jobs_table d = None -> jobs_table (initialiseDB d) = Some []) /\
  (forall rows i v,
      status_table d = Some rows -> lookup_status i rows = Some v ->
      exists rows', status_table (initialiseDB d) = Some rows' /\
                    lookup_status i rows' = Some v).
Proof.
  split; [|split; [|split]].
  - unfold initialiseDB; cbn [status_table jobs_table]; f_equal.
    f_equal; apply fold_noop; intros row Hr.
    apply fold_has; [apply status_rows_keys | exact Hr].
  - intros t Ht; unfold initialiseDB; rewrite Ht; reflexivity.
  - intros Ht; unfold initialiseDB; rewrite Ht; reflexivity.
  - intros rows i v Hs Hv; unfold initialiseDB; rewrite Hs.
    cbn [status_table]; eexists; split; [reflexivity|].
    apply fold_keeps; exact Hv.
Qed.

(** After [initialiseDB] every status code the statements write has a row
    in [status], so the foreign key of [jobs.status] is met; where the code
    had no row before, on a new database for one, the row carries the name
    [StatusType] gives the code. *)
Theorem status_codes_have_rows (d : database) (s : Status) :
  exists rows,
    status_table (initialiseDB d) = Some rows /\
    (exists name, lookup_status (status_code s) rows = Some name) /\
    (match status_table d with
     | Some old => lookup_status (status_code s) old = None
     | None => True
     end ->
     lookup_status (status_code s) rows = Some (Some (status_name s))).
Proof.
  unfold initialiseDB; cbn [status_table]; eexists; split; [reflexivity|].
  split.
  - apply (fold_has status_rows _ (status_code s, Some (status_name s)));
      [apply status_rows_keys | apply status_rows_complete].
  - intros Hold.
    apply (fold_new status_rows _ (status_code s, Some (status_name s)));
      [apply status_rows_keys | apply status_rows_complete|].
    destruct (status_table d); [exact Hold | reflexivity].
Qed.

(** ** Guards that hold *)

(** A claim passes over finished jobs: a row that is COMPLETE or FAILED is
    never the job [getNextJob] returns, and the claim leaves it as it is,
    at whatever store time and whatever its deadline and
    [attempts_remaining]. *)
Theorem claims_skip_terminal_jobs (now : Z) (t : Table) (i : Z) (r : Job) :
  wf t ->
  find_job i t = Some r ->
  terminal (status r) = true ->
  find_job i (snd (getNextJob now t)) = Some r /\
  (forall j, fst (getNextJob now t) = Some j -> id j <> i).
Proof.
  intros Hwf Hf Hterm.
  split; [apply getNextJob_keeps_terminal; assumption|].
  intros j Hj Hid.
  destruct (getNextJob_cases now t Hwf)
    as [[Hnone _]|[r0 [Hin0 [Hel0 [_ [Hfst _]]]]]].
  - rewrite Hnone in Hj; discriminate.
  - assert (Hj' : j = lease now r0) by (rewrite Hfst in Hj; congruence).
    rewrite Hj' in Hid; cbn [lease id] in Hid.
    pose proof (find_job_in t r0 Hwf Hin0) as H.
    rewrite Hid, Hf in H; inversion H; subst r0.
    apply eligible_not_terminal in Hel0; congruence.
Qed.

Lemma claims_skip_terminal_jobs_witness :
  wf [mkJob 1 FAILED "a" 3 2 60 (Some 60) (Some "x"%string)] /\
  find_job 1 (snd (getNextJob 500
                     [mkJob 1 FAILED "a" 3 2 60 (Some 60) (Some "x"%string)])) =
    Some (mkJob 1 FAILED "a" 3 2 60 (Some 60) (Some "x"%string)).
Proof.
  assert (Hwf : wf [mkJob 1 FAILED "a" 3 2 60 (Some 60) (Some "x"%string)])
    by (unfold wf; simpl; constructor; [simpl; tauto | constructor]).
  split; [exact Hwf|].
  exact (proj1 (claims_skip_terminal_jobs 500 _ 1 _ Hwf eq_refl eq_refl)).
Defined.

(** Where the version guard is written it works.  [completeJob], and
    [failJob] when the caller's [attempts_remaining] is [<= 0], called with
    a value that is not the row's current one, or for an id that has no
    row, match nothing: they resolve [false] and the whole table is as it
    was. *)
Theorem guarded_finalise_ignores_stale_token
        (now : Z) (t : Table) (job : Job) (reason : string) :
  wf t ->
  (forall r, find_job (id job) t = Some r ->
             attempts_remaining r <> attempts_remaining job) ->
  completeJob t job = (false, t) /\
  (attempts_remaining job <= 0 -> failJob now t job reason = (false, t)).
Proof.
  intros Hwf Hstale.
  destruct (find_job (id job) t) as [r|] eqn:Hf.
  - split.
    + apply (completeJob_stale t job r Hwf Hf); apply Hstale; reflexivity.
    + intros Hle.
      apply (failJob_terminal_path_stale now t job r reason Hwf Hf Hle).
      apply Hstale; reflexivity.
  - split; [apply completeJob_absent; exact Hf|].
    intros _; apply failJob_absent; exact Hf.
Qed.

Lemma guarded_finalise_ignores_stale_token_witness :
  wf [mkJob 1 IN_PROGRESS "a" 3 1 60 (Some 160) None] /\
  completeJob [mkJob 1 IN_PROGRESS "a" 3 1 60 (Some 160) None]
              (mkJob 1 IN_PROGRESS "a" 3 2 60 (Some 60) None) =
    (false, [mkJob 1 IN_PROGRESS "a" 3 1 60 (Some 160) None]).
Proof.
  assert (Hwf : wf [mkJob 1 IN_PROGRESS "a" 3 1 60 (Some 160) None])
    by (unfold wf; simpl; constructor; [simpl; tauto | constructor]).
  split; [exact Hwf|].
  refine (proj1 (guarded_finalise_ignores_stale_token
                   0 _ (mkJob 1 IN_PROGRESS "a" 3 2 60 (Some 60) None) "x" Hwf _)).
  intros r Hr; inversion Hr; subst r; simpl; lia.
Defined.
